(** * Tic-tac-toe Q-learning trainer: a shallow embedding of [tictactoe.py]

    The development follows the source file top to bottom: the
    hyperparameters, [QLearningPlayer], the helper functions, the
    rule-based [computer_move] and [Trainer.play_one_game].

    - Python numbers of the value table are IEEE binary64 floats
      ([PrimFloat.float]); the integer literals [0], [1] and [-1] the
      source mixes into float arithmetic are the floats they are promoted
      to.
    - The board is a Python list of one-character strings: [list string],
      read with [getitem] and written with [setitem], both raising
      [IndexError] out of range as Python does.
    - The value table is a Python dict with string keys: [gmap string float].
    - Exceptions are the [Raise] results of the [res] monad.
    - [random.random] and [random.choice] read an explicit generator state
      [rng] that is threaded through the calls.
    - The Tk widgets ([update_button], [root.update], [time.sleep]) and the
      JSON files are the display and the storage; they are not modelled. *)

From Stdlib Require Import Floats Sorted.
From stdpp Require Import base list strings gmap pretty.

Set Warnings "-inexact-float".

Local Open Scope string_scope.

(** ** Exceptions and the result monad *)

(** The three places of the program that can raise [IndexError], and the
    [ValueError] of [max] on an empty sequence. *)
Inductive exn : Set :=
  | EmptyChoice    (* random.choice on an empty sequence: IndexError *)
  | BoardIndex     (* board[i] out of range: IndexError *)
  | HistoryIndex   (* history[-1] on an empty list: IndexError *)
  | EmptyMax.      (* max() of an empty sequence without default: ValueError *)

Inductive res (A : Type) : Type :=
  | Ok (a : A)
  | Raise (e : exn).
Arguments Ok {A} a.
Arguments Raise {A} e.

#[global] Instance res_ret : MRet res := λ A a, Ok a.
#[global] Instance res_bind : MBind res :=
  λ A B f m, match m with Ok a => f a | Raise e => Raise e end.

(** ** Hyperparameters (lines 8-13) *)

Definition ALPHA : float := 0.3%float.
Definition GAMMA : float := 0.9%float.
Definition EPSILON : float := 0.2%float.      (* initial value of the global *)
Definition MIN_EPSILON : float := 0.05%float.
Definition EPSILON_DECAY : float := 0.99995%float.
Definition SAVE_INTERVAL : Z := 500.

(** ** Python built-ins used by the source *)

(** [max(a, b)] and [max(iterable)]: the first argument is kept unless a
    later one compares strictly greater. *)
Definition max2 (a b : float) : float :=
  if (a <? b)%float then b else a.

Definition max_list (l : list float) : option float :=
  match l with
  | [] => None
  | x :: xs => Some (foldl max2 x xs)
  end.

(** [max(iterable)] raises on an empty iterable; [max(iterable, default=d)]
    returns [d]. *)
Definition max_raise (l : list float) : res float :=
  match max_list l with Some m => Ok m | None => Raise EmptyMax end.
Definition max_default (l : list float) (d : float) : float :=
  default d (max_list l).

(** [board[i]] and [board[i] = v]. *)
Definition getitem (board : list string) (i : nat) : res string :=
  match board !! i with
  | Some c => Ok c
  | None => Raise BoardIndex
  end.

Definition setitem (board : list string) (i : nat) (v : string)
  : res (list string) :=
  if decide (i < length board) then Ok (<[i:=v]> board) else Raise BoardIndex.

(** The random generator: the stream of future [random()] results, the
    stream of future raw integers behind [choice], and the position in
    both. *)
Record rng : Type := Rng {
  rng_floats : nat → float;
  rng_ints : nat → nat;
  rng_pos : nat
}.

Definition rng_next (g : rng) : rng :=
  Rng (rng_floats g) (rng_ints g) (S (rng_pos g)).

Definition random (g : rng) : float * rng :=
  (rng_floats g (rng_pos g), rng_next g).

(** [random.choice(seq)] is [seq[randbelow(len(seq))]] and raises
    [IndexError] on an empty sequence. *)
Definition choice {A} (l : list A) (g : rng) : res (A * rng) :=
  match l !! (rng_ints g (rng_pos g) `mod` length l) with
  | Some x => Ok (x, rng_next g)
  | None => Raise EmptyChoice
  end.

(** ** Helper functions (lines 53-62) *)

Definition lines : list (list nat) :=
  [ [0;1;2]; [3;4;5]; [6;7;8];
    [0;3;6]; [1;4;7]; [2;5;8];
    [0;4;8]; [2;4;6] ].

(** [all(board[i] == symbol for i in line)], stopping at the first cell
    that differs. *)
Fixpoint all_cells (board : list string) (symbol : string) (line : list nat)
  : res bool :=
  match line with
  | [] => Ok true
  | i :: rest =>
      c ← getitem board i;
      if bool_decide (c = symbol) then all_cells board symbol rest
      else Ok false
  end.

(** [any(... for line in lines)], stopping at the first complete line. *)
Fixpoint any_line (board : list string) (symbol : string) (ls : list (list nat))
  : res bool :=
  match ls with
  | [] => Ok false
  | line :: rest =>
      w ← all_cells board symbol line;
      if (w : bool) then Ok true else any_line board symbol rest
  end.

Definition check_win (board : list string) (symbol : string) : res bool :=
  any_line board symbol lines.

Definition is_draw (board : list string) : bool :=
  negb (bool_decide ("_" ∈ board)).

(** ** The Q-learning player (lines 18-49)

    [self.q] is the dict handed to the constructor, the trainer's
    [q_table] itself, so every function below takes and returns the one
    table. [symbol] is ["X"] and [opponent_symbol] is ["O"] for the only
    player the trainer builds. *)

(** The cells joined with the empty separator. *)
Definition get_state (board : list string) : string :=
  String.concat EmptyString board.

(** [[i for i, cell in enumerate(board) if cell == "_"]], with the index
    [enumerate] has reached. *)
Fixpoint valid_from (i : nat) (board : list string) : list nat :=
  match board with
  | [] => []
  | cell :: rest =>
      if bool_decide (cell = "_") then i :: valid_from (S i) rest
      else valid_from (S i) rest
  end.

Definition get_valid_actions (board : list string) : list nat :=
  valid_from 0 board.

(** [f"{state}:{a}"] *)
Definition key (state : string) (a : nat) : string :=
  state ++ ":" ++ pretty a.

(** [self.q.get(k, 0)] *)
Definition q_get (q : gmap string float) (k : string) : float :=
  default 0%float (q !! k).

(** [[a for a, q in zip(actions, q_values) if q == max_q]] *)
Fixpoint best_of (max_q : float) (pairs : list (nat * float)) : list nat :=
  match pairs with
  | [] => []
  | (a, v) :: rest =>
      if (v =? max_q)%float then a :: best_of max_q rest
      else best_of max_q rest
  end.

(** [eps] is the value of the global [EPSILON] at the call. *)
Definition choose_action (q : gmap string float) (eps : float)
    (board : list string) (explore : bool) (g : rng)
  : res (option nat * rng) :=
  let state := get_state board in
  let actions := get_valid_actions board in
  match actions with
  | [] => Ok (None, g)
  | _ :: _ =>
      (* explore and random.random() < EPSILON *)
      let '(exploring, g1) :=
        if explore then
          let '(u, g1) := random g in ((u <? eps)%float, g1)
        else (false, g) in
      if (exploring : bool) then
        '(a, g2) ← choice actions g1;
        Ok (Some a, g2)
      else
        let q_values := (λ a, q_get q (key state a)) <$> actions in
        max_q ← max_raise q_values;
        let best_actions := best_of max_q (zip actions q_values) in
        '(a, g2) ← choice best_actions g1;
        Ok (Some a, g2)
  end.

Definition update_q (q : gmap string float) (old_state : string)
    (action : nat) (reward : float) (next_state : string)
    (next_actions : list nat) : gmap string float :=
  let k := key old_state action in
  let old_q := q_get q k in
  let next_q :=
    max_default ((λ a, q_get q (key next_state a)) <$> next_actions) 0%float in
  let new_q := (old_q + ALPHA * (reward + GAMMA * next_q - old_q))%float in
  <[k := new_q]> q.

(** ** The rule-based opponent (lines 79-114) *)

(** The two scanning loops: place [mark] in each cell of [cells] in turn,
    test, put ["_"] back. The board is the one list object, so it is
    passed on from one iteration to the next. *)
Fixpoint try_cells (board : list string) (mark : string) (cells : list nat)
  : res (list string * option nat) :=
  match cells with
  | [] => Ok (board, None)
  | i :: rest =>
      b1 ← setitem board i mark;
      w ← check_win b1 mark;
      if (w : bool) then
        b2 ← setitem b1 i "_";
        Ok (b2, Some i)
      else
        b2 ← setitem b1 i "_";
        try_cells b2 mark rest
  end.

(** [for i in cells: if board[i] == "_": return i] *)
Fixpoint first_empty (board : list string) (cells : list nat)
  : res (option nat) :=
  match cells with
  | [] => Ok None
  | i :: rest =>
      c ← getitem board i;
      if bool_decide (c = "_") then Ok (Some i) else first_empty board rest
  end.

Definition computer_move (board : list string) (symbol player_symbol : string)
    (g : rng) : res (list string * option nat * rng) :=
  let empty := get_valid_actions board in
  match empty with
  | [] => Ok (board, None, g)
  | _ :: _ =>
      (* Try to win *)
      '(b1, won) ← try_cells board symbol empty;
      match won with
      | Some i => Ok (b1, Some i, g)
      | None =>
      (* Block opponent *)
      '(b2, blocked) ← try_cells b1 player_symbol empty;
      match blocked with
      | Some i => Ok (b2, Some i, g)
      | None =>
      (* Take corners *)
      corner ← first_empty b2 [0; 2; 6; 8];
      match corner with
      | Some i => Ok (b2, Some i, g)
      | None =>
      (* Take center *)
      c ← getitem b2 4;
      if bool_decide (c = "_") then Ok (b2, Some 4, g)
      else
      (* Take sides *)
      side ← first_empty b2 [1; 3; 5; 7];
      match side with
      | Some i => Ok (b2, Some i, g)
      | None =>
          '(i, g') ← choice empty g;
          Ok (b2, Some i, g')
      end end end end
  end.

(** ** The trainer (lines 118-199) *)

Record stats : Set := Stats { games : Z; wins : Z; draws : Z }.

(** What the [while True] loop of [play_one_game] works on: the board, the
    shared value table, the counters, the local [history] and the
    generator. *)
Record game : Type := Game {
  g_board : list string;
  g_q : gmap string float;
  g_stats : stats;
  g_history : list (string * nat);
  g_rng : rng
}.

(** The six [break] statements of the loop, in source order. *)
Inductive ending : Set :=
  | NoAgentAction       (* line 147 *)
  | AgentWins           (* line 162 *)
  | DrawAfterAgent      (* line 169 *)
  | NoComputerAction    (* line 174 *)
  | ComputerWins        (* line 186 *)
  | DrawAfterComputer.  (* line 193 *)

Inductive step : Type :=
  | Continue (s : game)
  | Break (why : ending) (s : game).

(** [for s, a in pairs: player.update_q(s, a, reward, next_state, [])] *)
Definition update_each (q : gmap string float) (pairs : list (string * nat))
    (reward : float) (next_state : string) : gmap string float :=
  foldl (λ q '(s, a), update_q q s a reward next_state []) q pairs.

(** One pass through the body of the loop (lines 143-193). *)
Definition turn (eps : float) (s : game) : res step :=
  (* --- AI's Turn --- *)
  let state := get_state (g_board s) in
  '(chosen, g1) ← choose_action (g_q s) eps (g_board s) true (g_rng s);
  match chosen with
  | None => Ok (Break NoAgentAction
                  (Game (g_board s) (g_q s) (g_stats s) (g_history s) g1))
  | Some action =>
      b1 ← setitem (g_board s) action "X";
      let history := (g_history s ++ [(state, action)])%list in
      w ← check_win b1 "X";
      if (w : bool) then
        let q1 := update_each (g_q s) (reverse history) 1%float (get_state b1) in
        let st := Stats (games (g_stats s) + 1) (wins (g_stats s) + 1)
                        (draws (g_stats s)) in
        Ok (Break AgentWins (Game b1 q1 st history g1))
      else if is_draw b1 then
        let q1 := update_each (g_q s) history 0.2%float (get_state b1) in
        let st := Stats (games (g_stats s) + 1) (wins (g_stats s))
                        (draws (g_stats s) + 1) in
        Ok (Break DrawAfterAgent (Game b1 q1 st history g1))
      else
        (* --- Computer's Turn --- *)
        '(b2, comp_action, g2) ← computer_move b1 "O" "X" g1;
        match comp_action with
        | None => Ok (Break NoComputerAction
                        (Game b2 (g_q s) (g_stats s) history g2))
        | Some c =>
            b3 ← setitem b2 c "O";
            w ← check_win b3 "O";
            if (w : bool) then
              match last history with
              | None => Raise HistoryIndex
              | Some (last_state, last_action) =>
                  let q1 := update_q (g_q s) last_state last_action
                              (-1)%float (get_state b3) [] in
                  let st := Stats (games (g_stats s) + 1) (wins (g_stats s))
                                  (draws (g_stats s)) in
                  Ok (Break ComputerWins (Game b3 q1 st history g2))
              end
            else if is_draw b3 then
              let q1 := update_each (g_q s) history 0.2%float (get_state b3) in
              let st := Stats (games (g_stats s) + 1) (wins (g_stats s))
                              (draws (g_stats s) + 1) in
              Ok (Break DrawAfterComputer (Game b3 q1 st history g2))
            else
              Ok (Continue (Game b3 (g_q s) (g_stats s) history g2))
        end
  end.

(** [while True]: [None] when [fuel] passes through the body were not
    enough to reach a [break]. *)
Fixpoint game_loop (fuel : nat) (eps : float) (s : game)
  : option (res (ending * game)) :=
  match fuel with
  | 0 => None
  | S fuel' =>
      match turn eps s with
      | Raise e => Some (Raise e)
      | Ok (Break why s') => Some (Ok (why, s'))
      | Ok (Continue s') => game_loop fuel' eps s'
      end
  end.

(** [self.board = ["_"] * 9] *)
Definition reset_board : list string := replicate 9 "_".

(** The trainer between two games: its board, table and counters, the
    global [EPSILON] and the generator. *)
Record trainer : Type := Trainer {
  board : list string;
  q_table : gmap string float;
  stats_of : stats;
  epsilon : float;
  gen : rng
}.

(** Lines 138-193: the game itself, up to the [break]. *)
Definition episode (fuel : nat) (t : trainer) : option (res (ending * game)) :=
  game_loop fuel (epsilon t)
    (Game reset_board (q_table t) (stats_of t) [] (gen t)).

(** The decay of line 195: [max(MIN_EPSILON, EPSILON * EPSILON_DECAY)]. *)
Definition decay (eps : float) : float :=
  max2 MIN_EPSILON (eps * EPSILON_DECAY)%float.

(** The whole of [play_one_game]: the game, then the decay of the global
    [EPSILON]. An exception leaves the function before the decay. The
    periodic flush to the JSON files and the refresh of the label that
    follow are not modelled. *)
Definition play_one_game (fuel : nat) (t : trainer) : option (res trainer) :=
  match episode fuel t with
  | None => None
  | Some (Raise e) => Some (Raise e)
  | Some (Ok (_, s)) =>
      Some (Ok (Trainer (g_board s) (g_q s) (g_stats s)
                        (decay (epsilon t)) (g_rng s)))
  end.

(** [Trainer.__init__]: the table and the counters as loaded, the global
    [EPSILON] as the module sets it; no board yet. *)
Definition new_trainer (q : gmap string float) (st : stats) (g : rng)
  : trainer :=
  Trainer [] q st EPSILON g.

(** The trainers a session can be in: a fresh one, or one that has come
    out of a game. *)
Inductive reachable : trainer → Prop :=
  | reach_new q st g : reachable (new_trainer q st g)
  | reach_game fuel t t' :
      reachable t → play_one_game fuel t = Some (Ok t') → reachable t'.

(** ** The specification's vocabulary

    The definitions of this section follow the specification's words, not
    the source; the theorems compare them with the functions above. *)

(** A cell is Empty. *)
Definition empty_at (board : list string) (i : nat) : bool :=
  bool_decide (board !! i = Some "_").

(** A winning line is entirely [mark]; some mark has one of the 8 lines. *)
Definition line_is (board : list string) (mark : string) (line : list nat)
  : bool :=
  forallb (λ i, bool_decide (board !! i = Some mark)) line.

Definition has_line (board : list string) (mark : string) : bool :=
  existsb (line_is board mark) lines.

(** Occupying the Empty cell [i] with [mark] completes a line of [mark]. *)
Definition completes (board : list string) (mark : string) (i : nat) : bool :=
  empty_at board i && has_line (<[i:=mark]> board) mark.

(** The Heuristic Opponent's priority order, steps 1 to 5, over the cells
    0..8 in ascending order. *)
Definition opponent_rule (board : list string) (symbol player_symbol : string)
  : option nat :=
  match find (completes board symbol) (seq 0 9) with
  | Some i => Some i
  | None =>
  match find (completes board player_symbol) (seq 0 9) with
  | Some i => Some i
  | None =>
  match find (empty_at board) [0; 2; 6; 8] with
  | Some i => Some i
  | None =>
  if empty_at board 4 then Some 4
  else find (empty_at board) [1; 3; 5; 7]
  end end end.

(** The game is on: nine cells, no line for either mark, an empty cell. *)
Definition in_play (board : list string) : Prop :=
  length board = 9 ∧ has_line board "X" = false ∧
  has_line board "O" = false ∧ "_" ∈ board.

(** The terminal credit the specification prescribes (steps 3, 4, 6 and 7
    of the episode procedure) for an episode that started with the table
    [q0] and left the loop by [why] in the state [s]. *)
Definition credit_assigned (q0 : gmap string float) (why : ending) (s : game)
  : Prop :=
  let final := get_state (g_board s) in
  match why with
  | AgentWins =>
      check_win (g_board s) "X" = Ok true ∧
      g_q s = foldl (λ q '(st, a), update_q q st a 1 final [])
                    q0 (reverse (g_history s))
  | ComputerWins =>
      check_win (g_board s) "O" = Ok true ∧
      check_win (g_board s) "X" = Ok false ∧
      ∃ earlier st a,
        g_history s = (earlier ++ [(st, a)])%list ∧
        g_q s = update_q q0 st a (-1) final []
  | DrawAfterAgent | DrawAfterComputer =>
      is_draw (g_board s) = true ∧
      check_win (g_board s) "X" = Ok false ∧
      check_win (g_board s) "O" = Ok false ∧
      g_q s = foldl (λ q '(st, a), update_q q st a 0.2 final [])
                    q0 (g_history s)
  | NoAgentAction | NoComputerAction => False
  end.

(** The exploration rate keeps decaying without rising or passing the
    floor for [n] games from [e], and is the floor afterwards. *)
Fixpoint decays_to_floor (n : nat) (e : float) : bool :=
  match n with
  | 0 => PrimFloat.Leibniz.eqb e MIN_EPSILON
  | S n' =>
      (decay e <=? e)%float && (MIN_EPSILON <=? decay e)%float
      && decays_to_floor n' (decay e)
  end.

(** ** Sample inputs *)

(** A generator whose every [random()] is [u] and whose every raw integer
    is [k]. *)
Definition fixed_rng (u : float) (k : nat) : rng :=
  Rng (λ _, u) (λ _, k) 0.

(** A full board on which X holds the top row. *)
Definition full_board_x_row : list string :=
  ["X"; "X"; "X";
   "O"; "O"; "X";
   "X"; "O"; "O"].

(** O to move: O completes the top row at 1, X threatens the middle row
    at 5. *)
Definition board_o_can_win : list string :=
  ["O"; "_"; "O";
   "X"; "X"; "_";
   "_"; "_"; "X"].

(** A generator under which the agent, choosing among ties, plays 0, 8, 6
    and 7 and wins with the bottom row. *)
Definition winning_rng : rng :=
  Rng (λ _, 0.5%float) (λ n, nth n [0; 0; 0; 6; 0; 3; 0; 2] 0) 0.

(** A fresh trainer with an empty table. *)
Definition fresh_trainer (g : rng) : trainer :=
  new_trainer ∅ (Stats 0 0 0) g.

(** A table whose estimate for cell 0 of the empty board is NaN. *)
Definition nan_table : gmap string float :=
  {[ key (get_state reset_board) 0 := nan ]}.

(** ** The rest of the player and of the trainer *)

(** [QLearningPlayer.__init__]: [q] is [None] when the argument is left
    out; a dict that is given is kept, also when it is empty. *)
Record player : Type := Player {
  symbol : string;
  opponent_symbol : string;
  q : gmap string float
}.

Definition QLearningPlayer (symbol : string) (q : option (gmap string float))
  : player :=
  Player symbol
         (if bool_decide (symbol = "X") then "O" else "X")
         (match q with Some t => t | None => ∅ end).

(** Line 196, on the counters the game has left:
    [self.stats["games"] % SAVE_INTERVAL == 0]. *)
Definition saves_after (t : trainer) : bool :=
  bool_decide ((games (stats_of t) `mod` SAVE_INTERVAL)%Z = 0%Z).

(** The trainers after [n] games of a session that started with the table
    [q0] and the counters [st0]. *)
Inductive session (q0 : gmap string float) (st0 : stats)
  : nat → trainer → Prop :=
  | session_new g : session q0 st0 0 (new_trainer q0 st0 g)
  | session_game n fuel t t' :
      session q0 st0 n t → play_one_game fuel t = Some (Ok t') →
      session q0 st0 (S n) t'.

(** ** More vocabulary for the properties *)

(** The number of cells that hold [mark]. *)
Definition count_mark (mark : string) (board : list string) : nat :=
  length (filter (λ c, c = mark) board).

(** Every cell is one character. *)
Definition single_chars (board : list string) : Prop :=
  Forall (λ c, String.length c = 1) board.

(** Every cell is empty or holds one of the two marks. *)
Definition marks_only (board : list string) : Prop :=
  Forall (λ c, c = "_" ∨ c = "X" ∨ c = "O") board.

(** The keys of the recorded pairs. *)
Definition keys_of (pairs : list (string * nat)) : list string :=
  (λ p, key p.1 p.2) <$> pairs.

(** One terminal update of the estimate [old] with [reward]. *)
Definition terminal (old reward : float) : float :=
  (old + ALPHA * (reward + GAMMA * 0 - old))%float.

(** The history fits the board: nine cells with marks only, one X per
    recorded pair, pairwise distinct keys, and every pair is a nine-cell
    board with more empty cells than now, together with a cell that was
    empty then and holds X now. *)
Definition recorded (board : list string) (history : list (string * nat))
  : Prop :=
  length board = 9 ∧ marks_only board ∧
  count_mark "X" board = length history ∧
  NoDup (keys_of history) ∧
  ∀ st a, (st, a) ∈ history →
    board !! a = Some "X" ∧
    ∃ b, st = get_state b ∧ length b = 9 ∧ marks_only b ∧
         b !! a = Some "_" ∧
         length (get_valid_actions board) < length (get_valid_actions b).

(** The state at the top of a pass of an episode that started with the
    table [q0] and the counters [st0]. *)
Definition at_loop_head (q0 : gmap string float) (st0 : stats) (s : game)
  : Prop :=
  in_play (g_board s) ∧ recorded (g_board s) (g_history s) ∧
  count_mark "O" (g_board s) = length (g_history s) ∧
  g_q s = q0 ∧ g_stats s = st0.

(** The state an episode leaves, by the [break] it took. *)
Definition finished (st0 : stats) (why : ending) (s : game) : Prop :=
  recorded (g_board s) (g_history s) ∧ g_history s ≠ [] ∧
  match why with
  | AgentWins =>
      S (count_mark "O" (g_board s)) = length (g_history s) ∧
      g_stats s = Stats (games st0 + 1) (wins st0 + 1) (draws st0)
  | DrawAfterAgent =>
      S (count_mark "O" (g_board s)) = length (g_history s) ∧
      length (g_history s) = 5 ∧
      g_stats s = Stats (games st0 + 1) (wins st0) (draws st0 + 1)
  | ComputerWins =>
      count_mark "O" (g_board s) = length (g_history s) ∧
      g_stats s = Stats (games st0 + 1) (wins st0) (draws st0)
  | NoAgentAction | NoComputerAction | DrawAfterComputer => False
  end.

(** The reward the loop hands to [update_q] before each [break]
    (lines 159, 166, 184 and 190). *)
Definition reward_of (why : ending) : float :=
  match why with
  | AgentWins => 1%float
  | ComputerWins => (-1)%float
  | _ => 0.2%float
  end.

(** The pairs the loop hands to [update_q] before each [break]: the whole
    history, or [history[-1]] alone after a win of the opponent. *)
Definition credited_pairs (why : ending) (history : list (string * nat))
  : list (string * nat) :=
  match why with
  | ComputerWins => match last history with Some p => [p] | None => [] end
  | _ => history
  end.

(** The rate stays strictly above the floor for [n] games from [e]. *)
Fixpoint above_floor_for (n : nat) (e : float) : bool :=
  match n with
  | 0 => true
  | S n' => (MIN_EPSILON <? e)%float && above_floor_for n' (decay e)
  end.

(** A table with one estimate for each of the first three cells of the
    empty board, the largest for cell 1. *)
Definition table_prefers_1 : gmap string float :=
  <[ key (get_state reset_board) 0 := 0.1%float ]>
  (<[ key (get_state reset_board) 1 := 0.5%float ]>
  (<[ key (get_state reset_board) 2 := (-0.2)%float ]> ∅)).

(** O to move: O has no winning cell, X threatens the top row at 2. *)
Definition board_x_threatens : list string :=
  ["X"; "X"; "_";
   "_"; "O"; "_";
   "_"; "_"; "_"].

(** Three pairs of a game, as the history records them. *)
Definition three_pairs : list (string * nat) :=
  [("_________", 0); ("X_O______", 8); ("X_O_O___X", 6)].

(** * Proofs *)

(** ** The result monad *)

Lemma bind_Ok {A B} (f : A → res B) (a : A) : (Ok a ≫= f) = f a.
Proof. reflexivity. Qed.

Lemma bind_Raise {A B} (f : A → res B) (e : exn) : (Raise e ≫= f) = Raise e.
Proof. reflexivity. Qed.

Lemma bind_Ok_inv {A B} (f : A → res B) (m : res A) (b : B) :
  (m ≫= f) = Ok b → ∃ a, m = Ok a ∧ f a = Ok b.
Proof. destruct m as [a|e]; [eauto | discriminate]. Qed.

(** ** Reading and writing the board *)

Lemma getitem_lt (b : list string) (i : nat) :
  i < length b → ∃ c, b !! i = Some c ∧ getitem b i = Ok c.
Proof.
  intros Hi. destruct (lookup_lt_is_Some_2 b i Hi) as [c Hc].
  exists c. unfold getitem. by rewrite Hc.
Qed.

Lemma getitem_Some (b : list string) (i : nat) (c : string) :
  b !! i = Some c → getitem b i = Ok c.
Proof. intros H. unfold getitem. by rewrite H. Qed.

Lemma setitem_lt (b : list string) (i : nat) (v : string) :
  i < length b → setitem b i v = Ok (<[i:=v]> b).
Proof. intros Hi. unfold setitem. by rewrite decide_True. Qed.

Lemma setitem_Ok (b b' : list string) (i : nat) (v : string) :
  setitem b i v = Ok b' → i < length b ∧ b' = <[i:=v]> b.
Proof. unfold setitem. case_decide; naive_solver. Qed.

(** Writing a mark over a cell and writing the old content back gives the
    board back. *)
Lemma insert_restore (b : list string) (i : nat) (c v : string) :
  b !! i = Some c → <[i:=c]> (<[i:=v]> b) = b.
Proof.
  intros H. rewrite list_insert_insert_eq. by apply list_insert_id.
Qed.

(** ** The empty cells *)

Lemma elem_of_valid_from (b : list string) (i j : nat) :
  j ∈ valid_from i b ↔ ∃ k, j = i + k ∧ b !! k = Some "_".
Proof.
  revert i. induction b as [|c b IH]; intros i; simpl.
  - split; [by intros ?%elem_of_nil | by intros (k & _ & ?)].
  - case_bool_decide as Hc; rewrite ?elem_of_cons, IH.
    + split.
      * intros [->|(k & -> & Hk)]; [exists 0 | exists (S k)];
          split; try lia; by subst.
      * intros ([|k] & -> & Hk); [left; lia | right; exists k].
        split; [lia | done].
    + split.
      * intros (k & -> & Hk). exists (S k). split; [lia | done].
      * intros ([|k] & -> & Hk); simpl in Hk; [congruence |].
        exists k. split; [lia | done].
Qed.

Lemma elem_of_valid_actions (b : list string) (i : nat) :
  i ∈ get_valid_actions b ↔ b !! i = Some "_".
Proof.
  unfold get_valid_actions. rewrite elem_of_valid_from. split.
  - by intros (k & -> & Hk).
  - intros Hi. by exists i.
Qed.

Lemma valid_actions_lt (b : list string) (i : nat) :
  i ∈ get_valid_actions b → i < length b.
Proof. rewrite elem_of_valid_actions. apply lookup_lt_Some. Qed.

Lemma valid_from_nil (b : list string) (i : nat) :
  valid_from i b = [] ↔ "_" ∉ b.
Proof.
  revert i. induction b as [|c b IH]; intros i; simpl.
  - split; [intros _; apply not_elem_of_nil | done].
  - rewrite not_elem_of_cons. case_bool_decide as Hc.
    + split; [done|]. intros [Hne _]. by destruct Hne.
    + rewrite IH. split; [|by intros [_ ?]].
      intros Hb. split; [congruence | done].
Qed.

Lemma valid_actions_nil (b : list string) :
  get_valid_actions b = [] ↔ "_" ∉ b.
Proof. apply valid_from_nil. Qed.

Lemma is_draw_true (b : list string) : is_draw b = true ↔ "_" ∉ b.
Proof.
  unfold is_draw. rewrite negb_true_iff, bool_decide_eq_false. done.
Qed.

Lemma is_draw_false (b : list string) : is_draw b = false ↔ "_" ∈ b.
Proof.
  unfold is_draw. rewrite negb_false_iff, bool_decide_eq_true. done.
Qed.

Lemma find_seq_ext (P Q : nat → bool) (i n : nat) :
  (∀ j, i ≤ j < i + n → P j = Q j) → find P (seq i n) = find Q (seq i n).
Proof.
  revert i. induction n as [|n IH]; intros i HPQ; [done|].
  simpl. rewrite (HPQ i) by lia. rewrite IH; [done|].
  intros j Hj. apply HPQ. lia.
Qed.

Lemma valid_from_seq (P : nat → bool) (b : list string) (i : nat) :
  find P (valid_from i b)
  = find (λ j, empty_at b (j - i) && P j) (seq i (length b)).
Proof.
  revert i. induction b as [|c b IH]; intros i; [done|].
  simpl. replace (i - i) with 0 by lia. unfold empty_at at 1. simpl.
  rewrite (find_seq_ext (λ j, empty_at (c :: b) (j - i) && P j)
                        (λ j, empty_at b (j - S i) && P j)).
  2:{ intros j Hj. replace (j - i) with (S (j - S i)) by lia. done. }
  case_bool_decide as Hc.
  - simpl. destruct (P i) eqn:HP.
    + by rewrite bool_decide_true by congruence.
    + by rewrite andb_false_r, IH.
  - rewrite bool_decide_false by congruence. simpl. by rewrite IH.
Qed.

Lemma valid_actions_find (P : nat → bool) (b : list string) :
  find P (get_valid_actions b)
  = find (λ j, empty_at b j && P j) (seq 0 (length b)).
Proof.
  unfold get_valid_actions. rewrite valid_from_seq.
  apply find_seq_ext. intros j _. by rewrite Nat.sub_0_r.
Qed.

(** ** [check_win] on boards that have the nine cells *)

Lemma lines_lt_9 : Forall (Forall (λ i, i < 9)) lines.
Proof. unfold lines. repeat constructor. Qed.

Lemma all_cells_line_is (b : list string) (s : string) (line : list nat) :
  Forall (λ i, i < length b) line →
  all_cells b s line = Ok (line_is b s line).
Proof.
  induction 1 as [|i line Hi _ IH]; [done|].
  simpl. destruct (getitem_lt b i Hi) as (c & Hc & ->).
  rewrite bind_Ok, Hc, IH.
  case_bool_decide as H1; case_bool_decide as H2; try done; congruence.
Qed.

Lemma any_line_existsb (b : list string) (s : string) (ls : list (list nat)) :
  Forall (Forall (λ i, i < length b)) ls →
  any_line b s ls = Ok (existsb (line_is b s) ls).
Proof.
  induction 1 as [|line ls Hline _ IH]; [done|].
  simpl. rewrite all_cells_line_is, bind_Ok by done.
  destruct (line_is b s line); [done | by rewrite IH].
Qed.

Lemma check_win_has_line (b : list string) (s : string) :
  (9 ≤ length b)%nat → check_win b s = Ok (has_line b s).
Proof.
  intros Hb. apply any_line_existsb.
  eapply Forall_impl; [apply lines_lt_9|]. intros line Hline.
  eapply Forall_impl; [apply Hline|]. simpl. lia.
Qed.

(** ** The scanning loops of [computer_move] *)

(** Whatever a scan returns, the board it leaves is the board it got. *)
Lemma try_cells_board (b b' : list string) (mark : string) (cells : list nat)
    (r : option nat) :
  Forall (λ i, b !! i = Some "_") cells →
  try_cells b mark cells = Ok (b', r) → b' = b.
Proof.
  induction 1 as [|i cells Hi _ IH]; simpl.
  - by intros [= <- _].
  - intros H.
    apply bind_Ok_inv in H as (b1 & [_ ->]%setitem_Ok & H).
    apply bind_Ok_inv in H as (w & _ & H).
    destruct w.
    + apply bind_Ok_inv in H as (b2 & [_ ->]%setitem_Ok & [= <- _]).
      by apply insert_restore.
    + apply bind_Ok_inv in H as (b2 & [_ ->]%setitem_Ok & H).
      rewrite (insert_restore b i "_" mark Hi) in H. by apply IH.
Qed.

(** On a nine-cell board a scan returns the first of its cells at which
    the mark completes a line. *)
Lemma try_cells_find (b : list string) (mark : string) (cells : list nat) :
  (9 ≤ length b)%nat →
  Forall (λ i, b !! i = Some "_") cells →
  try_cells b mark cells
  = Ok (b, find (λ i, has_line (<[i:=mark]> b) mark) cells).
Proof.
  intros Hb. induction 1 as [|i cells Hi _ IH]; [done|].
  simpl. pose proof (lookup_lt_Some _ _ _ Hi) as Hlt.
  rewrite (setitem_lt b i mark Hlt), bind_Ok.
  rewrite check_win_has_line, bind_Ok by (by rewrite length_insert).
  rewrite setitem_lt by (by rewrite length_insert).
  rewrite bind_Ok, (insert_restore b i "_" mark Hi).
  by destruct (has_line (<[i:=mark]> b) mark).
Qed.

Lemma first_empty_find (b : list string) (cells : list nat) :
  Forall (λ i, i < length b) cells →
  first_empty b cells = Ok (find (empty_at b) cells).
Proof.
  induction 1 as [|i cells Hi _ IH]; [done|].
  simpl. destruct (getitem_lt b i Hi) as (c & Hc & ->).
  rewrite bind_Ok. unfold empty_at at 1. rewrite Hc, IH.
  case_bool_decide as H1; case_bool_decide as H2; try done; congruence.
Qed.

Lemma first_empty_Some (b : list string) (cells : list nat) (i : nat) :
  first_empty b cells = Ok (Some i) → b !! i = Some "_".
Proof.
  induction cells as [|j cells IH]; simpl; [done|].
  intros H. apply bind_Ok_inv in H as (c & Hc & H).
  unfold getitem in Hc. destruct (b !! j) as [c'|] eqn:Hj; [|done].
  injection Hc as ->. case_bool_decide as Hd.
  - injection H as <-. by subst.
  - by apply IH.
Qed.

Lemma valid_actions_Forall (b : list string) :
  Forall (λ i, b !! i = Some "_") (get_valid_actions b).
Proof. apply Forall_forall. intros i. apply elem_of_valid_actions. Qed.

Lemma find_completes (b : list string) (mark : string) :
  length b = 9 →
  find (λ i, has_line (<[i:=mark]> b) mark) (get_valid_actions b)
  = find (completes b mark) (seq 0 9).
Proof. intros Hb. rewrite valid_actions_find, Hb. done. Qed.

Lemma empty_at_full (b : list string) (i : nat) :
  "_" ∉ b → empty_at b i = false.
Proof.
  intros Hb. apply bool_decide_eq_false. intros Hi.
  apply Hb. by eapply list_elem_of_lookup_2.
Qed.

Lemma find_false {A} (P : A → bool) (l : list A) :
  (∀ x, P x = false) → find P l = None.
Proof. intros HP. induction l as [|x l IH]; simpl; [done|]. by rewrite HP. Qed.

Lemma completes_full (b : list string) (mark : string) (i : nat) :
  "_" ∉ b → completes b mark i = false.
Proof. intros Hb. unfold completes. by rewrite empty_at_full. Qed.

Lemma opponent_rule_full (b : list string) (s p : string) :
  "_" ∉ b → opponent_rule b s p = None.
Proof.
  intros Hb. unfold opponent_rule.
  rewrite (find_false (completes b s)) by (intros; by apply completes_full).
  rewrite (find_false (completes b p)) by (intros; by apply completes_full).
  rewrite !(find_false (empty_at b)) by (intros; by apply empty_at_full).
  by rewrite empty_at_full.
Qed.

(** On a nine-cell board with an empty cell, one of the cells the steps 3
    to 5 look at is empty. *)
Lemma some_preferred_cell_empty (b : list string) (s p : string) :
  length b = 9 → "_" ∈ b →
  find (empty_at b) [0; 2; 6; 8] = None →
  empty_at b 4 = false →
  find (empty_at b) [1; 3; 5; 7] = None → False.
Proof.
  intros Hb (i & Hi)%list_elem_of_lookup_1 Hc H4 Hs.
  pose proof (lookup_lt_Some _ _ _ Hi) as Hlt. rewrite Hb in Hlt.
  assert (He : empty_at b i = true) by by apply bool_decide_eq_true.
  pose proof (find_none _ _ Hc) as Hc'. pose proof (find_none _ _ Hs) as Hs'.
  do 9 (destruct i as [|i]; [first
    [ congruence
    | rewrite Hc' in He by (simpl; tauto); discriminate
    | rewrite Hs' in He by (simpl; tauto); discriminate ] |]).
  lia.
Qed.

(** The source's [computer_move] computes the specification's rule, puts
    the board back and draws nothing from the generator. *)
Lemma computer_move_rule (b : list string) (s p : string) (g : rng) :
  length b = 9 →
  computer_move b s p g = Ok (b, opponent_rule b s p, g).
Proof.
  intros Hb. unfold computer_move.
  destruct (get_valid_actions b) as [|i0 rest] eqn:Hv.
  { apply valid_actions_nil in Hv. by rewrite opponent_rule_full. }
  assert (Hin : "_" ∈ b).
  { destruct (decide ("_" ∈ b)) as [|Hn]; [done|].
    apply valid_actions_nil in Hn. congruence. }
  rewrite <- Hv. unfold opponent_rule.
  rewrite try_cells_find, bind_Ok by (lia || apply valid_actions_Forall).
  cbn beta iota. rewrite find_completes by done.
  destruct (find (completes b s) (seq 0 9)) as [i|]; [done|].
  rewrite try_cells_find, bind_Ok by (lia || apply valid_actions_Forall).
  cbn beta iota. rewrite find_completes by done.
  destruct (find (completes b p) (seq 0 9)) as [i|]; [done|].
  assert (Hcells : ∀ cells, Forall (λ i, i < 9) cells →
            first_empty b cells = Ok (find (empty_at b) cells)).
  { intros cells Hcells. apply first_empty_find. by rewrite Hb. }
  rewrite (Hcells [0; 2; 6; 8]), bind_Ok by (repeat constructor).
  destruct (find (empty_at b) [0; 2; 6; 8]) as [i|] eqn:Hc; [done|].
  destruct (getitem_lt b 4) as (c & Hc4 & ->); [lia|].
  rewrite bind_Ok. unfold empty_at at 1. rewrite Hc4.
  case_bool_decide as H4.
  { subst c. by rewrite bool_decide_true. }
  rewrite bool_decide_false by congruence.
  rewrite (Hcells [1; 3; 5; 7]), bind_Ok by (repeat constructor).
  destruct (find (empty_at b) [1; 3; 5; 7]) as [i|] eqn:Hs; [done|].
  exfalso. apply (some_preferred_cell_empty b s p Hb Hin Hc); [|done].
  apply bool_decide_eq_false. congruence.
Qed.

(** ** Claims about the board and the opponent *)

(** C4, as amended: [is_draw] is true exactly when no cell of the board is
    empty; the lines the board holds play no part in it (the trainer calls
    [check_win] first). *)
Theorem is_draw_iff_no_empty_cell (board : list string) :
  is_draw board = true ↔ ∀ i, board !! i ≠ Some "_".
Proof.
  rewrite is_draw_true. split.
  - intros Hb i Hi. apply Hb. by eapply list_elem_of_lookup_2.
  - intros Hb (i & Hi)%list_elem_of_lookup_1. by apply (Hb i).
Qed.

(** C4 as stated fails: on a full board whose top row is X, [is_draw] is
    true although a mark has won. *)
Lemma is_draw_true_on_won_board :
  ("_" ∉ full_board_x_row) ∧
  check_win full_board_x_row "X" = Ok true ∧
  is_draw full_board_x_row = true ∧
  ¬ (is_draw full_board_x_row = true ↔
     ("_" ∉ full_board_x_row) ∧
     check_win full_board_x_row "X" = Ok false ∧
     check_win full_board_x_row "O" = Ok false).
Proof.
  assert (Hd : is_draw full_board_x_row = true) by reflexivity.
  split; [by apply is_draw_true|]. split; [reflexivity|]. split; [done|].
  intros [H _]. destruct (H Hd) as (_ & Hx & _). vm_compute in Hx. discriminate.
Qed.

Lemma opponent_rule_None (b : list string) (s p : string) :
  length b = 9 → opponent_rule b s p = None ↔ "_" ∉ b.
Proof.
  intros Hb. split; [|apply opponent_rule_full].
  intros Hr Hin. unfold opponent_rule in Hr.
  destruct (find (completes b s) (seq 0 9)); [done|].
  destruct (find (completes b p) (seq 0 9)); [done|].
  destruct (find (empty_at b) [0; 2; 6; 8]) eqn:Hc; [done|].
  destruct (empty_at b 4) eqn:H4; [done|].
  by apply (some_preferred_cell_empty b s p Hb Hin Hc H4).
Qed.

(** C5: on a nine-cell board [computer_move] returns the cell the priority
    order of steps 1 to 5 picks, and returns no cell exactly when the board
    has no empty cell. *)
Theorem computer_move_priority (board : list string)
    (symbol player_symbol : string) (g : rng) :
  length board = 9 →
  (∃ b' g', computer_move board symbol player_symbol g
            = Ok (b', opponent_rule board symbol player_symbol, g')) ∧
  (opponent_rule board symbol player_symbol = None ↔ "_" ∉ board).
Proof.
  intros Hb. split.
  - exists board, g. by apply computer_move_rule.
  - by apply opponent_rule_None.
Qed.

Lemma computer_move_priority_witness :
  length board_o_can_win = 9 ∧
  opponent_rule board_o_can_win "O" "X" = Some 1 ∧
  (∃ b' g', computer_move board_o_can_win "O" "X" (fixed_rng 0.5 0)
            = Ok (b', opponent_rule board_o_can_win "O" "X", g')) ∧
  (opponent_rule board_o_can_win "O" "X" = None ↔ "_" ∉ board_o_can_win).
Proof.
  split; [reflexivity|]. split; [reflexivity|].
  apply (computer_move_priority board_o_can_win "O" "X" (fixed_rng 0.5 0)).
  reflexivity.
Defined.

Lemma computer_move_board (b b' : list string) (s p : string) (g g' : rng)
    (r : option nat) :
  computer_move b s p g = Ok (b', r, g') → b' = b.
Proof.
  unfold computer_move. pose proof (valid_actions_Forall b) as Hv.
  destruct (get_valid_actions b) as [|i0 rest] eqn:He; [by intros [= <- _ _]|].
  intros H.
  apply bind_Ok_inv in H as ([b1 won] & H1 & H).
  apply try_cells_board in H1 as ->; [|done].
  destruct won; [by injection H as <- _ _|].
  apply bind_Ok_inv in H as ([b2 blocked] & H2 & H).
  apply try_cells_board in H2 as ->; [|done].
  destruct blocked; [by injection H as <- _ _|].
  apply bind_Ok_inv in H as (corner & _ & H).
  destruct corner; [by injection H as <- _ _|].
  apply bind_Ok_inv in H as (c & _ & H).
  case_bool_decide; [by injection H as <- _ _|].
  apply bind_Ok_inv in H as (side & _ & H).
  destruct side; [by injection H as <- _ _|].
  apply bind_Ok_inv in H as ([i g2] & _ & H). by injection H as <- _ _.
Qed.

(** C6: whenever [computer_move] returns, the board is the board it was
    called on, and on a nine-cell board it always returns. *)
Theorem computer_move_restores_board (board : list string)
    (symbol player_symbol : string) (g : rng) :
  (∀ b' r g', computer_move board symbol player_symbol g = Ok (b', r, g') →
              b' = board) ∧
  (length board = 9 →
   ∃ r g', computer_move board symbol player_symbol g = Ok (board, r, g')).
Proof.
  split.
  - intros b' r g'. apply computer_move_board.
  - intros Hb. eexists _, _. by apply computer_move_rule.
Qed.

Lemma computer_move_restores_board_witness :
  length board_o_can_win = 9 ∧
  computer_move board_o_can_win "O" "X" (fixed_rng 0.5 0)
  = Ok (board_o_can_win, Some 1, fixed_rng 0.5 0) ∧
  ∃ r g', computer_move board_o_can_win "O" "X" (fixed_rng 0.5 0)
          = Ok (board_o_can_win, r, g').
Proof.
  split; [reflexivity|]. split; [reflexivity|].
  apply (computer_move_restores_board board_o_can_win "O" "X" (fixed_rng 0.5 0)).
  reflexivity.
Defined.

Lemma choice_advances {A} (l : list A) (g g' : rng) (x : A) :
  choice l g = Ok (x, g') → rng_pos g' = S (rng_pos g) ∧ x ∈ l.
Proof.
  unfold choice. destruct (l !! _) as [y|] eqn:Hy; [|done].
  intros [= <- <-]. split; [done|]. by eapply list_elem_of_lookup_2.
Qed.

(** C7: on a nine-cell board the result of [computer_move] is the same for
    every generator and the generator comes back untouched, whereas
    [random.choice] always advances it: the random fallback is never
    reached, because a board with an empty cell has an empty corner, centre
    or side. *)
Theorem computer_move_deterministic (board : list string)
    (symbol player_symbol : string) :
  length board = 9 →
  (∃ r, ∀ g, computer_move board symbol player_symbol g = Ok (board, r, g)) ∧
  (∀ g g' i, choice (get_valid_actions board) g = Ok (i, g') → g' ≠ g) ∧
  ("_" ∈ board →
   first_empty board [0; 2; 6; 8] ≠ Ok None ∨
   getitem board 4 = Ok "_" ∨
   first_empty board [1; 3; 5; 7] ≠ Ok None).
Proof.
  intros Hb. split; [|split].
  - exists (opponent_rule board symbol player_symbol). intros g.
    by apply computer_move_rule.
  - intros g g' i [Hpos _]%choice_advances ->. lia.
  - intros Hin.
    rewrite !first_empty_find by (rewrite Hb; repeat constructor).
    destruct (find (empty_at board) [0; 2; 6; 8]) eqn:Hc; [by left|].
    destruct (empty_at board 4) eqn:H4.
    { right; left. apply bool_decide_eq_true in H4. by apply getitem_Some. }
    destruct (find (empty_at board) [1; 3; 5; 7]) eqn:Hs; [by right; right|].
    destruct (some_preferred_cell_empty board symbol player_symbol
                Hb Hin Hc H4 Hs).
Qed.

Lemma computer_move_deterministic_witness :
  length board_o_can_win = 9 ∧
  (∃ r, ∀ g, computer_move board_o_can_win "O" "X" g
             = Ok (board_o_can_win, r, g)) ∧
  (∀ g g' i, choice (get_valid_actions board_o_can_win) g = Ok (i, g') →
             g' ≠ g) ∧
  ("_" ∈ board_o_can_win →
   first_empty board_o_can_win [0; 2; 6; 8] ≠ Ok None ∨
   getitem board_o_can_win 4 = Ok "_" ∨
   first_empty board_o_can_win [1; 3; 5; 7] ≠ Ok None).
Proof.
  split; [reflexivity|].
  apply (computer_move_deterministic board_o_can_win "O" "X"). reflexivity.
Defined.

(** ** Comparisons of binary64 floats and Python's [max] *)

Lemma SFltb_trans (a b c : spec_float) :
  SFltb a b = true → SFltb b c = true → SFltb a c = true.
Proof.
  unfold SFltb.
  destruct a as [[]|[]| |[] ma ea], b as [[]|[]| |[] mb eb],
           c as [[]|[]| |[] mc ec]; simpl; try done.
  all: change (Pos.compare_cont Eq ?x ?y) with (Pos.compare x y).
  all: destruct (Z.compare_spec ea eb), (Z.compare_spec eb ec),
         (Z.compare_spec ea ec); try done; try lia.
  all: destruct (Pos.compare_spec ma mb), (Pos.compare_spec mb mc),
         (Pos.compare_spec ma mc); simpl; try done; try lia.
Qed.

Lemma SFltb_irrefl (a : spec_float) : SFltb a a = false.
Proof.
  unfold SFltb. destruct a as [[]|[]| |[] m e]; simpl; try done.
  all: change (Pos.compare_cont Eq ?x ?y) with (Pos.compare x y).
  all: by rewrite Z.compare_refl, Pos.compare_refl.
Qed.

Lemma ltb_trans (x y z : float) :
  (x <? y)%float = true → (y <? z)%float = true → (x <? z)%float = true.
Proof. rewrite !ltb_spec. apply SFltb_trans. Qed.

Lemma ltb_irrefl (x : float) : (x <? x)%float = false.
Proof. rewrite ltb_spec. apply SFltb_irrefl. Qed.

Lemma eqb_refl_not_nan (x : float) :
  is_nan x = false → (x =? x)%float = true.
Proof. unfold is_nan. by rewrite negb_false_iff. Qed.

(** What the loop of [max] keeps: an element of the sequence, reached from
    the first one by strict increases, below which no element lies. *)
Lemma foldl_max2_spec (x : float) (xs : list float) :
  let m := foldl max2 x xs in
  m ∈ x :: xs ∧
  (m = x ∨ (x <? m)%float = true) ∧
  ∀ v, v ∈ x :: xs → (m <? v)%float = false.
Proof.
  revert x. induction xs as [|y xs IH]; intros x; simpl.
  - split; [apply list_elem_of_here|]. split; [by left|].
    intros v ->%list_elem_of_singleton. apply ltb_irrefl.
  - destruct (IH (max2 x y)) as (Hin & Hreach & Hub).
    set (m := foldl max2 (max2 x y) xs) in *. clearbody m.
    unfold max2 in Hin, Hreach, Hub. destruct (x <? y)%float eqn:Hxy.
    + split; [by apply list_elem_of_further|]. split.
      { right. destruct Hreach as [->|Hym]; [done|]. by eapply ltb_trans. }
      intros v [Hv|Hv]%elem_of_cons; [|by apply Hub].
      rewrite Hv. destruct (m <? x)%float eqn:Hmx; [|done].
      assert (Hyx : (y <? x)%float = true).
      { destruct Hreach as [<-|Hym]; [done|]. by eapply ltb_trans. }
      pose proof (ltb_trans _ _ _ Hxy Hyx) as Hxx.
      by rewrite ltb_irrefl in Hxx.
    + split.
      { apply elem_of_cons in Hin as [->|Hin]; [apply list_elem_of_here|].
        by do 2 apply list_elem_of_further. }
      split; [done|].
      intros v [Hv|[Hv|Hv]%elem_of_cons]%elem_of_cons;
        [rewrite Hv; apply Hub, list_elem_of_here |
         | by apply Hub, list_elem_of_further].
      rewrite Hv. destruct (m <? y)%float eqn:Hmy; [|done].
      destruct Hreach as [Hm|Hxm].
      * rewrite Hm in Hmy. congruence.
      * pose proof (ltb_trans _ _ _ Hxm Hmy). congruence.
Qed.

Lemma max_list_spec (l : list float) (m : float) :
  max_list l = Some m → m ∈ l ∧ ∀ v, v ∈ l → (m <? v)%float = false.
Proof.
  destruct l as [|x xs]; [done|]. intros [= <-].
  destruct (foldl_max2_spec x xs) as (Hin & _ & Hub). done.
Qed.

Lemma max_list_is_Some (l : list float) : l ≠ [] → is_Some (max_list l).
Proof. destruct l; [done | by eexists]. Qed.

(** ** The value update *)

Lemma update_q_lookup (q : gmap string float) (s : string) (a : nat)
    (r : float) (ns : string) (nas : list nat) :
  update_q q s a r ns nas !! key s a
  = Some (q_get q (key s a)
          + ALPHA * (r + GAMMA * max_default ((λ a', q_get q (key ns a')) <$> nas) 0
                     - q_get q (key s a)))%float.
Proof. unfold update_q. apply lookup_insert_eq. Qed.

Lemma update_q_lookup_ne (q : gmap string float) (s : string) (a : nat)
    (r : float) (ns : string) (nas : list nat) (k : string) :
  k ≠ key s a → update_q q s a r ns nas !! k = q !! k.
Proof. intros Hk. unfold update_q. by apply lookup_insert_ne. Qed.

(** C1: [update_q] stores [old + ALPHA * (reward + GAMMA * maxNext - old)]
    under the key of (state, action), where [old] is the entry of that key
    or 0, and [maxNext] is 0 for an empty list of next actions and otherwise
    an entry over the next actions that none of them exceeds; no other key
    changes; ALPHA is 0.3 and GAMMA is 0.9; a terminal update of an absent
    entry with reward 1 stores exactly 0.3. *)
Theorem update_q_stores_td_target (q : gmap string float) (state : string)
    (action : nat) (reward : float) (next_state : string)
    (next_actions : list nat) :
  let old := default 0%float (q !! key state action) in
  let nexts := (λ a, default 0%float (q !! key next_state a)) <$> next_actions in
  let q' := update_q q state action reward next_state next_actions in
  (∃ maxNext,
     q' !! key state action
     = Some (old + ALPHA * (reward + GAMMA * maxNext - old))%float ∧
     (next_actions = [] → maxNext = 0%float) ∧
     (next_actions ≠ [] →
      maxNext ∈ nexts ∧ ∀ v, v ∈ nexts → (maxNext <? v)%float = false)) ∧
  (∀ k, k ≠ key state action → q' !! k = q !! k) ∧
  ALPHA = 0.3%float ∧ GAMMA = 0.9%float ∧
  (q !! key state action = None →
   update_q q state action 1 next_state [] !! key state action
   = Some 0.3%float).
Proof.
  intros old nexts q'. split; [|split; [|split; [|split]]].
  - exists (max_default nexts 0). split; [apply update_q_lookup|]. split.
    + by intros ->.
    + intros Hne. unfold max_default.
      destruct (max_list_is_Some nexts) as [m Hm].
      { subst nexts. by destruct next_actions. }
      rewrite Hm. by apply max_list_spec.
  - intros k Hk. by apply update_q_lookup_ne.
  - reflexivity.
  - reflexivity.
  - intros Hnone. rewrite update_q_lookup. unfold q_get. rewrite Hnone.
    reflexivity.
Qed.

Lemma update_q_stores_td_target_witness :
  update_q ∅ "_________" 4 1 "X_O_X_O_X" [] !! key "_________" 4
  = Some 0.3%float.
Proof.
  apply (update_q_stores_td_target ∅ "_________" 4 1 "X_O_X_O_X" []).
  reflexivity.
Defined.

(** ** Action selection *)

Lemma choice_nonempty {A} (l : list A) (g : rng) :
  l ≠ [] →
  ∃ x, l !! (rng_ints g (rng_pos g) `mod` length l) = Some x ∧
       choice l g = Ok (x, rng_next g).
Proof.
  intros Hl. unfold choice.
  destruct (lookup_lt_is_Some_2 l (rng_ints g (rng_pos g) `mod` length l))
    as [x Hx].
  { apply Nat.mod_upper_bound. by destruct l. }
  exists x. by rewrite Hx.
Qed.

Lemma best_of_filter (max_q : float) (f : nat → float) (actions : list nat) :
  best_of max_q (zip actions (f <$> actions))
  = filter (λ a, (f a =? max_q)%float = true) actions.
Proof.
  induction actions as [|a actions IH]; [done|].
  rewrite fmap_cons, filter_cons, <- IH. simpl.
  destruct (f a =? max_q)%float eqn:Hfa.
  - by rewrite decide_True.
  - by rewrite decide_False.
Qed.

Lemma NoDup_valid_from (i : nat) (b : list string) : NoDup (valid_from i b).
Proof.
  revert i. induction b as [|c b IH]; intros i; simpl; [constructor|].
  case_bool_decide; [|apply IH]. constructor; [|apply IH].
  intros (k & Hk & _)%elem_of_valid_from. lia.
Qed.

(** The two branches of [choose_action] on a board with an empty cell. *)
Lemma choose_action_explore (q : gmap string float) (eps : float)
    (b : list string) (g : rng) :
  get_valid_actions b ≠ [] →
  (rng_floats g (rng_pos g) <? eps)%float = true →
  choose_action q eps b true g
  = choice (get_valid_actions b) (rng_next g) ≫= λ '(a, g2), Ok (Some a, g2).
Proof.
  intros Hne Hu. unfold choose_action.
  destruct (get_valid_actions b); [done|]. simpl. by rewrite Hu.
Qed.

Lemma choose_action_exploit (q : gmap string float) (eps : float)
    (b : list string) (explore : bool) (g : rng) :
  get_valid_actions b ≠ [] →
  explore = false ∨ (rng_floats g (rng_pos g) <? eps)%float = false →
  choose_action q eps b explore g
  = max_raise ((λ a, q_get q (key (get_state b) a)) <$> get_valid_actions b)
    ≫= λ max_q,
      choice (filter (λ a, (q_get q (key (get_state b) a) =? max_q)%float = true)
                     (get_valid_actions b))
             (if explore then rng_next g else g)
      ≫= λ '(a, g2), Ok (Some a, g2).
Proof.
  intros Hne Hu. unfold choose_action.
  destruct (get_valid_actions b) as [|a0 rest] eqn:Hv; [done|].
  assert (Hbranch : (if explore
             then let '(u, g1) := random g in ((u <? eps)%float, g1)
             else (false, g)) = (false, if explore then rng_next g else g)).
  { destruct explore; [|done]. destruct Hu as [?|Hu]; [done|].
    simpl. by rewrite Hu. }
  rewrite Hbranch. cbn iota beta.
  destruct (max_raise _) as [max_q|e]; [|done].
  rewrite !bind_Ok. by rewrite best_of_filter.
Qed.

Lemma choose_action_valid (q : gmap string float) (eps : float)
    (b : list string) (explore : bool) (g g' : rng) (a : nat) :
  choose_action q eps b explore g = Ok (Some a, g') → b !! a = Some "_".
Proof.
  intros H. apply elem_of_valid_actions. revert H.
  destruct (get_valid_actions b) as [|a0 rest] eqn:Hv.
  { unfold choose_action. by rewrite Hv. }
  assert (Hne : get_valid_actions b ≠ []) by by rewrite Hv.
  destruct explore, (rng_floats g (rng_pos g) <? eps)%float eqn:Hu.
  1: rewrite choose_action_explore by done.
  2-4: rewrite choose_action_exploit by tauto.
  2-4: intros (max_q & _ & H)%bind_Ok_inv; revert H.
  all: intros ([a1 g2] & [_ Hin]%choice_advances & [= <- _])%bind_Ok_inv.
  all: rewrite <- Hv; try done; by apply list_elem_of_filter in Hin as [_ ?].
Qed.

Lemma choose_action_None (q : gmap string float) (eps : float)
    (b : list string) (explore : bool) (g g' : rng) :
  choose_action q eps b explore g = Ok (None, g') ↔ ("_" ∉ b) ∧ g' = g.
Proof.
  destruct (get_valid_actions b) as [|a0 rest] eqn:Hv.
  - pose proof (proj1 (valid_actions_nil b) Hv) as Hb.
    unfold choose_action. rewrite Hv.
    split; [by intros [= ->] | by intros [_ ->]].
  - assert (Hne : get_valid_actions b ≠ []) by by rewrite Hv.
    split.
    + destruct explore, (rng_floats g (rng_pos g) <? eps)%float eqn:Hu.
      1: rewrite choose_action_explore by done.
      2-4: rewrite choose_action_exploit by tauto.
      2-4: intros (max_q & _ & H)%bind_Ok_inv; revert H.
      all: by intros ([a1 g2] & _ & [=])%bind_Ok_inv.
    + intros [Hb _]. by apply valid_actions_nil in Hb.
Qed.

(** The greedy branch: the largest estimate, and a draw from the valid
    actions whose estimate equals it. *)
Lemma choose_action_greedy (q : gmap string float) (eps : float)
    (b : list string) (explore : bool) (g : rng) :
  let estimate := λ a, q_get q (key (get_state b) a) in
  get_valid_actions b ≠ [] →
  explore = false ∨ (rng_floats g (rng_pos g) <? eps)%float = false →
  ∃ max_q,
    max_list (estimate <$> get_valid_actions b) = Some max_q ∧
    let best := filter (λ a, (estimate a =? max_q)%float = true)
                       (get_valid_actions b) in
    ((∀ a, a ∈ get_valid_actions b → is_nan (estimate a) = false) →
     best ≠ []) ∧
    ∀ g0, rng_floats g0 = rng_floats g → rng_pos g0 = rng_pos g →
          choose_action q eps b explore g0
          = choice best (if explore then rng_next g0 else g0)
            ≫= λ '(a, g2), Ok (Some a, g2).
Proof.
  intros estimate Hne Hu.
  destruct (max_list_is_Some (estimate <$> get_valid_actions b))
    as [max_q Hmax].
  { by destruct (get_valid_actions b). }
  exists max_q. split; [done|]. intros best. split.
  - intros Hnan. destruct (max_list_spec _ _ Hmax) as [Hmem _].
    apply list_elem_of_fmap in Hmem as (a0 & Hq & Ha0).
    assert (Hb : a0 ∈ best).
    { apply list_elem_of_filter. split; [|done].
      rewrite Hq. by apply eqb_refl_not_nan, Hnan. }
    intros Hnil. rewrite Hnil in Hb. by apply elem_of_nil in Hb.
  - intros g0 Hf Hp. rewrite choose_action_exploit; [|done|].
    2:{ by rewrite Hf, Hp. }
    unfold max_raise. fold estimate. by rewrite Hmax.
Qed.

(** C3: [choose_action] returns no action exactly when the board has no
    empty cell. On a board with an empty cell, when exploring and the draw
    is below the exploration rate it returns the valid action at the drawn
    index; otherwise it takes the largest estimate of a valid action
    (0 for absent keys) and draws from the valid actions whose estimate
    equals it: it returns the one at the drawn index, and each of them is
    returned for some draw. The list of these actions is not empty when
    the estimates are numbers (none is NaN). *)
Theorem choose_action_epsilon_greedy (q : gmap string float) (eps : float)
    (board : list string) (explore : bool) (g : rng) :
  let actions := get_valid_actions board in
  let estimate := λ a, default 0%float (q !! key (get_state board) a) in
  let draw := rng_floats g (rng_pos g) in
  ((∃ g', choose_action q eps board explore g = Ok (None, g')) ↔ "_" ∉ board) ∧
  (∀ a, a ∈ actions ↔ board !! a = Some "_") ∧
  ("_" ∈ board → explore = true → (draw <? eps)%float = true →
   ∃ a, actions !! (rng_ints g (S (rng_pos g)) `mod` length actions) = Some a ∧
        choose_action q eps board explore g
        = Ok (Some a, rng_next (rng_next g))) ∧
  ("_" ∈ board → explore = false ∨ (draw <? eps)%float = false →
   ∃ max_q best g1,
     g1 = (if explore then rng_next g else g) ∧
     max_q ∈ estimate <$> actions ∧
     (∀ a, a ∈ actions → (max_q <? estimate a)%float = false) ∧
     best = filter (λ a, (estimate a =? max_q)%float = true) actions ∧
     NoDup best ∧
     choose_action q eps board explore g
     = (choice best g1 ≫= λ '(a, g2), Ok (Some a, g2)) ∧
     ((∀ a, a ∈ actions → is_nan (estimate a) = false) →
      best ≠ [] ∧
      ∃ a, best !! (rng_ints g1 (rng_pos g1) `mod` length best) = Some a ∧
           choose_action q eps board explore g = Ok (Some a, rng_next g1)) ∧
     (∀ a, a ∈ best →
           ∃ k, choose_action q eps board explore
                  (Rng (rng_floats g) (λ _, k) (rng_pos g))
                = Ok (Some a, rng_next (Rng (rng_floats g) (λ _, k)
                                            (rng_pos g1))))).
Proof.
  intros actions estimate draw.
  assert (Hactions : "_" ∈ board → actions ≠ []).
  { intros Hin H. by apply valid_actions_nil in H. }
  split; [|split; [|split]].
  - split.
    + intros [g' H]. by apply choose_action_None in H as [? _].
    + intros Hb. exists g. by apply choose_action_None.
  - intros a. apply elem_of_valid_actions.
  - intros Hin -> Hu. specialize (Hactions Hin).
    rewrite choose_action_explore by done.
    destruct (choice_nonempty actions (rng_next g) Hactions) as (a & Ha & Hc).
    exists a. split; [done|]. unfold actions in Hc. by rewrite Hc.
  - intros Hin Hu. specialize (Hactions Hin).
    destruct (choose_action_greedy q eps board explore g Hactions Hu)
      as (max_q & Hmax' & Hbest' & Hrun').
    set (best := filter (λ a, (estimate a =? max_q)%float = true) actions).
    set (g1 := if explore then rng_next g else g).
    assert (Hmax : max_list (estimate <$> actions) = Some max_q)
      by exact Hmax'.
    assert (Hbest : (∀ a, a ∈ actions → is_nan (estimate a) = false) →
                    best ≠ []) by exact Hbest'.
    assert (Hrun : ∀ g0 : rng,
      rng_floats g0 = rng_floats g → rng_pos g0 = rng_pos g →
      choose_action q eps board explore g0
      = choice best (if explore then rng_next g0 else g0)
        ≫= λ '(a, g2), Ok (Some a, g2)) by exact Hrun'.
    clear Hmax' Hbest' Hrun'.
    destruct (max_list_spec _ _ Hmax) as [Hmem Hub].
    exists max_q, best, g1. split; [done|]. split; [done|].
    split; [intros a Ha; apply Hub; by apply list_elem_of_fmap_2|].
    split; [done|].
    split; [apply NoDup_filter, NoDup_valid_from|].
    split; [by apply Hrun|]. split.
    + intros Hnan. specialize (Hbest Hnan). split; [done|].
      rewrite (Hrun g) by done. fold g1.
      destruct (choice_nonempty best g1 Hbest) as (a & Ha & ->).
      by exists a.
    + intros a Ha.
      assert (Hne : best ≠ []).
      { intros Hnil. rewrite Hnil in Ha. by apply elem_of_nil in Ha. }
      apply list_elem_of_lookup_1 in Ha as (i & Hi). exists i.
      rewrite Hrun by done.
      set (g2 := if explore then _ else _).
      destruct (choice_nonempty best g2 Hne) as (a' & Ha' & ->).
      assert (Hk : rng_ints g2 (rng_pos g2) = i) by by destruct explore.
      rewrite Hk, Nat.mod_small in Ha' by by eapply lookup_lt_Some.
      rewrite Hi in Ha'. injection Ha' as <-.
      subst g1 g2. by destruct explore.
Qed.

(** With a NaN estimate in first place [max] is NaN, no estimate equals
    it, and [random.choice] is handed an empty list. *)
Example choose_action_nan_estimate :
  choose_action nan_table EPSILON reset_board false (fixed_rng 0.5 0)
  = Raise EmptyChoice.
Proof. vm_compute. reflexivity. Qed.

Lemma choose_action_epsilon_greedy_witness :
  ("_" ∈ reset_board) ∧
  (rng_floats (fixed_rng 0.1 4) 0 <? EPSILON)%float = true ∧
  ∃ a, get_valid_actions reset_board !! (4 `mod` 9) = Some a ∧
       choose_action ∅ EPSILON reset_board true (fixed_rng 0.1 4)
       = Ok (Some a, rng_next (rng_next (fixed_rng 0.1 4))).
Proof.
  assert (Hin : "_" ∈ reset_board) by apply list_elem_of_here.
  split; [done|]. split; [reflexivity|].
  apply (choose_action_epsilon_greedy ∅ EPSILON reset_board true
           (fixed_rng 0.1 4)); [done | reflexivity | reflexivity].
Defined.

(** ** Applying a move *)

Lemma try_cells_Some (b b' : list string) (mark : string) (cells : list nat)
    (i : nat) :
  try_cells b mark cells = Ok (b', Some i) → i ∈ cells.
Proof.
  revert b. induction cells as [|j cells IH]; intros b; simpl; [done|].
  intros H.
  apply bind_Ok_inv in H as (b1 & _ & H).
  apply bind_Ok_inv in H as (w & _ & H).
  destruct w; apply bind_Ok_inv in H as (b2 & _ & H).
  - injection H as _ <-. apply list_elem_of_here.
  - apply list_elem_of_further. by eapply IH.
Qed.

Lemma computer_move_valid (b b' : list string) (s p : string) (g g' : rng)
    (c : nat) :
  computer_move b s p g = Ok (b', Some c, g') → b !! c = Some "_".
Proof.
  unfold computer_move. pose proof (valid_actions_Forall b) as Hv.
  destruct (get_valid_actions b) as [|i0 rest] eqn:He; [done|].
  rewrite <- He in *. intros H.
  apply bind_Ok_inv in H as ([b1 won] & H1 & H).
  pose proof (try_cells_board _ _ _ _ _ Hv H1) as ->.
  destruct won as [i|].
  { injection H as _ -> _. apply elem_of_valid_actions.
    by eapply try_cells_Some. }
  apply bind_Ok_inv in H as ([b2 blocked] & H2 & H).
  pose proof (try_cells_board _ _ _ _ _ Hv H2) as ->.
  destruct blocked as [i|].
  { injection H as _ -> _. apply elem_of_valid_actions.
    by eapply try_cells_Some. }
  apply bind_Ok_inv in H as (corner & Hcorner & H).
  destruct corner as [i|].
  { injection H as _ -> _. by eapply first_empty_Some. }
  apply bind_Ok_inv in H as (c4 & Hc4 & H).
  case_bool_decide as H4.
  { injection H as _ <- _. unfold getitem in Hc4.
    destruct (b !! 4); [|done]. congruence. }
  apply bind_Ok_inv in H as (side & Hside & H).
  destruct side as [i|].
  { injection H as _ -> _. by eapply first_empty_Some. }
  apply bind_Ok_inv in H as ([i g2] & [_ Hi]%choice_advances & H).
  injection H as _ -> _. by apply elem_of_valid_actions.
Qed.

(** C9, as amended: the assignment [board[action] = mark] writes the mark
    into every cell of the board, empty or not, and raises only out of
    range; the actions the game loop applies come from [choose_action] and
    [computer_move], which only return empty cells. *)
Theorem moves_are_written_unchecked :
  (∀ (board : list string) i mark,
     i < length board →
     setitem board i mark = Ok (<[i:=mark]> board) ∧
     <[i:=mark]> board !! i = Some mark) ∧
  (∀ q eps board explore g a g',
     choose_action q eps board explore g = Ok (Some a, g') →
     board !! a = Some "_") ∧
  (∀ board symbol player_symbol g b' c g',
     computer_move board symbol player_symbol g = Ok (b', Some c, g') →
     board !! c = Some "_").
Proof.
  split; [|split].
  - intros board i mark Hi. split; [by apply setitem_lt|].
    by apply list_lookup_insert_eq.
  - intros q eps board explore g a g'. apply choose_action_valid.
  - intros board s p g b' c g'. apply computer_move_valid.
Qed.

(** C9 as stated fails: a move on the occupied cell 0 is not rejected, it
    replaces the X by an O. *)
Lemma occupied_cell_is_overwritten :
  full_board_x_row !! 0 = Some "X" ∧
  (0 ∉ get_valid_actions full_board_x_row) ∧
  setitem full_board_x_row 0 "O"
  = Ok ["O"; "X"; "X"; "O"; "O"; "X"; "X"; "O"; "O"] ∧
  ¬ (∃ e, setitem full_board_x_row 0 "O" = Raise e).
Proof.
  split; [reflexivity|]. split; [by intros ?%elem_of_nil|].
  split; [reflexivity|]. by intros [e ?].
Qed.

(** ** What can be raised where *)

Lemma bind_Raise_inv {A B} (f : A → res B) (m : res A) (e : exn) :
  (m ≫= f) = Raise e → m = Raise e ∨ ∃ a, m = Ok a ∧ f a = Raise e.
Proof.
  intros H. destruct m as [a|e']; [right; eauto|].
  left. by injection H as ->.
Qed.

Lemma getitem_Raise (b : list string) (i : nat) (e : exn) :
  getitem b i = Raise e → e = BoardIndex.
Proof. unfold getitem. destruct (b !! i); congruence. Qed.

Lemma setitem_Raise (b : list string) (i : nat) (v : string) (e : exn) :
  setitem b i v = Raise e → e = BoardIndex.
Proof. unfold setitem. case_decide; congruence. Qed.

Lemma all_cells_Raise (b : list string) (s : string) (line : list nat)
    (e : exn) :
  all_cells b s line = Raise e → e = BoardIndex.
Proof.
  induction line as [|i line IH]; simpl; [done|].
  intros [H|(c & _ & H)]%bind_Raise_inv; [by eapply getitem_Raise|].
  case_bool_decide; [by apply IH | done].
Qed.

Lemma check_win_Raise (b : list string) (s : string) (e : exn) :
  check_win b s = Raise e → e = BoardIndex.
Proof.
  unfold check_win. induction lines as [|line ls IH]; simpl; [done|].
  intros [H|(w & _ & H)]%bind_Raise_inv; [by eapply all_cells_Raise|].
  destruct w; [done | by apply IH].
Qed.

Lemma try_cells_Raise (b : list string) (mark : string) (cells : list nat)
    (e : exn) :
  try_cells b mark cells = Raise e → e = BoardIndex.
Proof.
  revert b. induction cells as [|i cells IH]; intros b; simpl; [done|].
  intros [H|(b1 & _ & H)]%bind_Raise_inv; [by eapply setitem_Raise|].
  apply bind_Raise_inv in H as [H|(w & _ & H)]; [by eapply check_win_Raise|].
  destruct w; apply bind_Raise_inv in H as [H|(b2 & _ & H)]; try done;
    first [exact (setitem_Raise _ _ _ _ H) | exact (IH _ H)].
Qed.

Lemma first_empty_Raise (b : list string) (cells : list nat) (e : exn) :
  first_empty b cells = Raise e → e = BoardIndex.
Proof.
  induction cells as [|i cells IH]; simpl; [done|].
  intros [H|(c & _ & H)]%bind_Raise_inv; [by eapply getitem_Raise|].
  case_bool_decide; [done | by apply IH].
Qed.

Lemma choice_Raise {A} (l : list A) (g : rng) (e : exn) :
  choice l g = Raise e → e = EmptyChoice.
Proof. unfold choice. destruct (l !! _); congruence. Qed.

Lemma computer_move_Raise (b : list string) (s p : string) (g : rng)
    (e : exn) :
  computer_move b s p g = Raise e → e = BoardIndex ∨ e = EmptyChoice.
Proof.
  unfold computer_move. destruct (get_valid_actions b) as [|i0 rest]; [done|].
  intros [H|([b1 won] & _ & H)]%bind_Raise_inv;
    [left; by eapply try_cells_Raise|].
  destruct won; [done|].
  apply bind_Raise_inv in H as [H|([b2 blocked] & _ & H)];
    [left; by eapply try_cells_Raise|].
  destruct blocked; [done|].
  apply bind_Raise_inv in H as [H|(corner & _ & H)];
    [left; by eapply first_empty_Raise|].
  destruct corner; [done|].
  apply bind_Raise_inv in H as [H|(c & _ & H)];
    [left; by eapply getitem_Raise|].
  case_bool_decide; [done|].
  apply bind_Raise_inv in H as [H|(side & _ & H)];
    [left; by eapply first_empty_Raise|].
  destruct side; [done|].
  apply bind_Raise_inv in H as [H|([i g2] & _ & H)];
    [right; by eapply choice_Raise | done].
Qed.

Lemma choose_action_Raise (q : gmap string float) (eps : float)
    (b : list string) (explore : bool) (g : rng) (e : exn) :
  choose_action q eps b explore g = Raise e → e = EmptyChoice.
Proof.
  destruct (get_valid_actions b) as [|a0 rest] eqn:Hv.
  { unfold choose_action. by rewrite Hv. }
  assert (Hne : get_valid_actions b ≠ []) by by rewrite Hv.
  destruct explore, (rng_floats g (rng_pos g) <? eps)%float eqn:Hu.
  1: rewrite choose_action_explore by done.
  2-4: rewrite choose_action_exploit by tauto.
  2-4: rewrite Hv; unfold max_raise; simpl.
  all: intros [H|([a g2] & _ & H)]%bind_Raise_inv;
         [by eapply choice_Raise | done].
Qed.


(** ** Marks on the board *)

(** A mark put on the board completes no line of another mark. *)
Lemma line_is_insert_ne (b : list string) (i : nat) (m s : string)
    (line : list nat) :
  m ≠ s → line_is (<[i:=m]> b) s line = true → line_is b s line = true.
Proof.
  intros Hms. unfold line_is. rewrite !forallb_forall.
  intros H j Hj. specialize (H j Hj).
  apply bool_decide_eq_true in H. apply bool_decide_eq_true.
  apply list_lookup_insert_Some in H as [(_ & ? & _)|[_ ?]]; done.
Qed.

Lemma has_line_insert_ne (b : list string) (i : nat) (m s : string) :
  m ≠ s → has_line b s = false → has_line (<[i:=m]> b) s = false.
Proof.
  intros Hms Hb. destruct (has_line (<[i:=m]> b) s) eqn:H; [|done].
  unfold has_line in *. apply existsb_exists in H as (line & Hline & H).
  apply (line_is_insert_ne _ _ _ _ _ Hms) in H.
  assert (existsb (line_is b s) lines = true); [|congruence].
  apply existsb_exists. eauto.
Qed.

(** A mark put on an empty cell takes one empty cell away. *)
Lemma valid_from_insert (b : list string) (k i : nat) (m : string) :
  b !! i = Some "_" → m ≠ "_" →
  length (valid_from k (<[i:=m]> b)) + 1 = length (valid_from k b).
Proof.
  revert k i. induction b as [|c b IH]; intros k i Hi Hm; [done|].
  destruct i as [|i]; simpl in *.
  - injection Hi as ->. rewrite (bool_decide_false (m = "_")) by done.
    rewrite (bool_decide_true ("_" = "_")) by done. simpl. lia.
  - specialize (IH (S k) i Hi Hm). case_bool_decide; simpl; lia.
Qed.

Lemma valid_actions_insert (b : list string) (i : nat) (m : string) :
  b !! i = Some "_" → m ≠ "_" →
  length (get_valid_actions (<[i:=m]> b)) + 1 = length (get_valid_actions b).
Proof. apply valid_from_insert. Qed.

Lemma in_play_reset : in_play reset_board.
Proof.
  split; [reflexivity|]. split; [reflexivity|]. split; [reflexivity|].
  apply list_elem_of_here.
Qed.

(** ** One pass through the loop *)

(** No pass indexes an empty [history]: the pair of this pass is appended
    before the last pair is read. *)
Lemma turn_Raise (eps : float) (s : game) (e : exn) :
  turn eps s = Raise e → e = EmptyChoice ∨ e = BoardIndex.
Proof.
  unfold turn.
  intros [H|([chosen g1] & _ & H)]%bind_Raise_inv;
    [left; by eapply choose_action_Raise|].
  destruct chosen as [action|]; [|done].
  apply bind_Raise_inv in H as [H|(b1 & _ & H)];
    [right; by eapply setitem_Raise|].
  apply bind_Raise_inv in H as [H|(w & _ & H)];
    [right; by eapply check_win_Raise|].
  destruct w; [done|]. destruct (is_draw b1); [done|].
  apply bind_Raise_inv in H as [H|([[b2 comp_action] g2] & _ & H)].
  { apply computer_move_Raise in H. tauto. }
  destruct comp_action as [c|]; [|done].
  apply bind_Raise_inv in H as [H|(b3 & _ & H)];
    [right; by eapply setitem_Raise|].
  apply bind_Raise_inv in H as [H|(w & _ & H)];
    [right; by eapply check_win_Raise|].
  rewrite last_snoc in H.
  destruct w; [done|]. by destruct (is_draw b3).
Qed.

Lemma turn_ComputerWins (eps : float) (s s' : game) :
  turn eps s = Ok (Break ComputerWins s') →
  ∃ earlier st a, g_history s' = (earlier ++ [(st, a)])%list.
Proof.
  unfold turn.
  intros ([chosen g1] & _ & H)%bind_Ok_inv.
  destruct chosen as [action|]; [|done].
  apply bind_Ok_inv in H as (b1 & _ & H).
  apply bind_Ok_inv in H as (w & _ & H).
  destruct w; [done|]. destruct (is_draw b1); [done|].
  apply bind_Ok_inv in H as ([[b2 comp_action] g2] & _ & H).
  destruct comp_action as [c|]; [|done].
  apply bind_Ok_inv in H as (b3 & _ & H).
  apply bind_Ok_inv in H as (w & _ & H).
  rewrite last_snoc in H.
  destruct w; [|by destruct (is_draw b3)].
  injection H as <-. simpl. eauto.
Qed.

(** A pass that starts with the game on either stops because
    [choose_action] raised, or breaks with the credit assigned, or goes on
    with the game still on, the table untouched and two empty cells less. *)
Lemma turn_in_play (eps : float) (s : game) :
  in_play (g_board s) →
  (∃ e, choose_action (g_q s) eps (g_board s) true (g_rng s) = Raise e ∧
        turn eps s = Raise e) ∨
  (∃ why s', turn eps s = Ok (Break why s') ∧
             credit_assigned (g_q s) why s') ∨
  (∃ s', turn eps s = Ok (Continue s') ∧ in_play (g_board s') ∧
         g_q s' = g_q s ∧
         length (get_valid_actions (g_board s')) + 2
         = length (get_valid_actions (g_board s))).
Proof.
  intros (Hlen & HX & HO & Hin). unfold turn.
  destruct (choose_action (g_q s) eps (g_board s) true (g_rng s))
    as [[chosen g1]|e] eqn:Hchoose; [|left; by exists e].
  right. rewrite bind_Ok. cbn beta iota.
  destruct chosen as [a|].
  2:{ by apply choose_action_None in Hchoose as [? _]. }
  pose proof (choose_action_valid _ _ _ _ _ _ _ Hchoose) as Ha.
  pose proof (lookup_lt_Some _ _ _ Ha) as Hlt.
  rewrite setitem_lt, bind_Ok by done.
  set (b1 := <[a:="X"]> (g_board s)).
  assert (Hlen1 : length b1 = 9) by by (unfold b1; rewrite length_insert).
  assert (HO1 : has_line b1 "O" = false) by by apply has_line_insert_ne.
  rewrite check_win_has_line, bind_Ok by lia.
  destruct (has_line b1 "X") eqn:HX1.
  { left. eexists _, _. split; [done|]. simpl.
    by rewrite check_win_has_line, HX1 by lia. }
  destruct (is_draw b1) eqn:Hd1.
  { left. eexists _, _. split; [done|]. simpl.
    by rewrite !check_win_has_line, HX1, HO1 by lia. }
  apply is_draw_false in Hd1.
  rewrite computer_move_rule, bind_Ok by done. cbn beta iota.
  destruct (opponent_rule b1 "O" "X") as [c|] eqn:Hrule.
  2:{ by apply opponent_rule_None in Hrule. }
  assert (Hc : b1 !! c = Some "_").
  { eapply (computer_move_valid b1 b1 "O" "X" g1 g1).
    by rewrite computer_move_rule, Hrule. }
  pose proof (lookup_lt_Some _ _ _ Hc) as Hltc.
  rewrite setitem_lt, bind_Ok by done.
  set (b3 := <[c:="O"]> b1).
  assert (Hlen3 : length b3 = 9) by by (unfold b3; rewrite length_insert).
  assert (HX3 : has_line b3 "X" = false) by by apply has_line_insert_ne.
  rewrite check_win_has_line, bind_Ok by lia. rewrite last_snoc.
  destruct (has_line b3 "O") eqn:HO3.
  { left. eexists _, _. split; [done|]. simpl.
    rewrite !check_win_has_line, HX3, HO3 by lia. eauto 10. }
  destruct (is_draw b3) eqn:Hd3.
  { left. eexists _, _. split; [done|]. simpl.
    by rewrite !check_win_has_line, HX3, HO3 by lia. }
  right. eexists. split; [done|]. simpl.
  split; [by apply is_draw_false in Hd3|]. split; [done|].
  pose proof (valid_actions_insert b1 c "O" Hc ltac:(done)) as H3.
  pose proof (valid_actions_insert (g_board s) a "X" Ha ltac:(done)) as H1.
  fold b1 in H1. fold b3 in H3. lia.
Qed.

(** ** The loop *)

Lemma game_loop_credit (fuel : nat) (eps : float) (s s' : game)
    (why : ending) :
  in_play (g_board s) →
  game_loop fuel eps s = Some (Ok (why, s')) →
  credit_assigned (g_q s) why s'.
Proof.
  revert s. induction fuel as [|fuel IH]; intros s Hplay; simpl; [done|].
  destruct (turn_in_play eps s Hplay)
    as [(e & _ & ->)|[(w & s1 & -> & Hc)|(s1 & -> & Hplay1 & Hq & _)]].
  - done.
  - by intros [= <- <-].
  - rewrite <- Hq. by apply IH.
Qed.

Lemma game_loop_Raise (fuel : nat) (eps : float) (s : game) (e : exn) :
  game_loop fuel eps s = Some (Raise e) → e = EmptyChoice ∨ e = BoardIndex.
Proof.
  revert s. induction fuel as [|fuel IH]; intros s; simpl; [done|].
  destruct (turn eps s) as [[s1|w s1]|e'] eqn:Ht.
  - apply IH.
  - done.
  - intros [= <-]. by eapply turn_Raise.
Qed.

Lemma game_loop_ComputerWins (fuel : nat) (eps : float) (s s' : game) :
  game_loop fuel eps s = Some (Ok (ComputerWins, s')) →
  ∃ earlier st a, g_history s' = (earlier ++ [(st, a)])%list.
Proof.
  revert s. induction fuel as [|fuel IH]; intros s; simpl; [done|].
  destruct (turn eps s) as [[s1|w s1]|e'] eqn:Ht.
  - apply IH.
  - intros [= -> ->]. by eapply turn_ComputerWins.
  - done.
Qed.

(** Every pass that goes on fills two cells, so the loop is left after at
    most half as many passes as there are empty cells, rounded up. *)
Lemma game_loop_returns (fuel : nat) (eps : float) (s : game) :
  in_play (g_board s) →
  length (get_valid_actions (g_board s)) < 2 * fuel →
  is_Some (game_loop fuel eps s).
Proof.
  revert s. induction fuel as [|fuel IH]; intros s Hplay Hfuel; [lia|].
  simpl.
  destruct (turn_in_play eps s Hplay)
    as [(e & _ & ->)|[(w & s1 & -> & Hc)|(s1 & -> & Hplay1 & Hq & Hn)]];
    [by eexists | by eexists |].
  apply IH; [done | lia].
Qed.


(** C10: no episode, whatever the trainer and however long it is run,
    raises [IndexError] on [history[-1]]: wherever the opponent-win branch
    is reached, in the loop from any state, the history ends with a pair.
    Five passes through the loop are enough for the game to return or
    raise. *)
Theorem history_nonempty_when_computer_wins (fuel : nat) (t : trainer) :
  episode fuel t ≠ Some (Raise HistoryIndex) ∧
  play_one_game fuel t ≠ Some (Raise HistoryIndex) ∧
  (∀ s, episode fuel t = Some (Ok (ComputerWins, s)) →
        ∃ earlier st a, g_history s = (earlier ++ [(st, a)])%list) ∧
  (∀ eps s, turn eps s ≠ Raise HistoryIndex) ∧
  (∀ eps s s', turn eps s = Ok (Break ComputerWins s') → g_history s' ≠ []) ∧
  ((5 ≤ fuel)%nat → is_Some (play_one_game fuel t)).
Proof.
  assert (Hep : episode fuel t ≠ Some (Raise HistoryIndex)).
  { intros H. apply game_loop_Raise in H as [?|?]; discriminate. }
  split; [done|]. split; [|split; [|split; [|split]]].
  - unfold play_one_game. destruct (episode fuel t) as [[[why s]|e]|]; congruence.
  - intros s. apply game_loop_ComputerWins.
  - intros eps s H. apply turn_Raise in H as [?|?]; discriminate.
  - intros eps s s' (earlier & st & a & ->)%turn_ComputerWins.
    by destruct earlier.
  - intros Hfuel. unfold play_one_game.
    destruct (game_loop_returns fuel (epsilon t)
                (Game reset_board (q_table t) (stats_of t) [] (gen t)))
      as [r Hr]; [apply in_play_reset | simpl; lia |].
    unfold episode. rewrite Hr. destruct r as [[why s]|e]; by eexists.
Qed.

Lemma history_nonempty_when_computer_wins_witness :
  match episode 5 (fresh_trainer (fixed_rng 0.5 0)) with
  | Some (Ok (why, s)) =>
      why = ComputerWins ∧
      ∃ earlier st a, g_history s = (earlier ++ [(st, a)])%list
  | _ => False
  end.
Proof.
  destruct (episode 5 (fresh_trainer (fixed_rng 0.5 0)))
    as [[[why s]|e]|] eqn:E.
  - assert (Hwhy : why = ComputerWins).
    { vm_compute in E. by injection E as <- _. }
    split; [done|]. subst why.
    apply (history_nonempty_when_computer_wins 5
             (fresh_trainer (fixed_rng 0.5 0))), E.
  - vm_compute in E. discriminate.
  - vm_compute in E. discriminate.
Defined.

(** ** The exploration rate *)

Lemma decay_floor : decay MIN_EPSILON = MIN_EPSILON.
Proof. reflexivity. Qed.

Lemma iter_decay_floor (k : nat) : Nat.iter k decay MIN_EPSILON = MIN_EPSILON.
Proof. induction k as [|k IH]; simpl; [done|]. by rewrite IH. Qed.

(** The check of [decays_to_floor] covers every later rate. *)
Lemma decays_to_floor_sound (n : nat) (e : float) :
  decays_to_floor n e = true →
  ∀ k, let x := Nat.iter k decay e in
       (decay x <=? x)%float = true ∧ (MIN_EPSILON <=? decay x)%float = true.
Proof.
  revert e. induction n as [|n IH]; intros e; simpl.
  - intros ->%FloatAxioms.Leibniz.eqb_spec k. rewrite iter_decay_floor.
    split; reflexivity.
  - intros [[Hle Hmin]%andb_true_iff Hrest]%andb_true_iff [|k].
    + done.
    + rewrite Nat.iter_succ_r. by apply IH.
Qed.

(** From 0.2 the rate reaches the floor in 27726 games. *)
Lemma epsilon_schedule : decays_to_floor (N.to_nat 27726) EPSILON = true.
Proof. vm_compute. reflexivity. Qed.

Lemma play_one_game_epsilon (fuel : nat) (t t' : trainer) :
  play_one_game fuel t = Some (Ok t') → epsilon t' = decay (epsilon t).
Proof.
  unfold play_one_game. destruct (episode fuel t) as [[[why s]|e]|]; try done.
  by intros [= <-].
Qed.

Lemma reachable_epsilon (t : trainer) :
  reachable t → ∃ k, epsilon t = Nat.iter k decay EPSILON.
Proof.
  induction 1 as [q st g|fuel t t' _ [k Hk] Hgame].
  - by exists 0.
  - exists (S k). apply play_one_game_epsilon in Hgame.
    simpl. by rewrite <- Hk.
Qed.

(** C8: a game that returns leaves the exploration rate at
    max(MIN_EPSILON, rate * EPSILON_DECAY), the one update of the game; in
    every session (a fresh trainer starts at 0.2) the new rate is not above
    the old one and not below MIN_EPSILON = 0.05, with
    EPSILON_DECAY = 0.99995. *)
Theorem exploration_rate_decays (fuel : nat) (t t' : trainer) :
  reachable t →
  play_one_game fuel t = Some (Ok t') →
  epsilon t'
  = (if (MIN_EPSILON <? epsilon t * EPSILON_DECAY)%float
     then (epsilon t * EPSILON_DECAY)%float else MIN_EPSILON) ∧
  (epsilon t' <=? epsilon t)%float = true ∧
  (MIN_EPSILON <=? epsilon t')%float = true ∧
  MIN_EPSILON = 0.05%float ∧ EPSILON_DECAY = 0.99995%float.
Proof.
  intros [k Hk]%reachable_epsilon Hgame%play_one_game_epsilon.
  split; [done|]. rewrite Hgame, Hk.
  destruct (decays_to_floor_sound _ _ epsilon_schedule k) as [Hle Hmin].
  done.
Qed.

Lemma exploration_rate_decays_witness :
  match play_one_game 5 (fresh_trainer winning_rng) with
  | Some (Ok t') =>
      epsilon t' = 0.19999%float ∧
      (epsilon t' <=? EPSILON)%float = true ∧
      (MIN_EPSILON <=? epsilon t')%float = true
  | _ => False
  end.
Proof.
  destruct (play_one_game 5 (fresh_trainer winning_rng)) as [[t'|e]|] eqn:E.
  - destruct (exploration_rate_decays 5 (fresh_trainer winning_rng) t'
                (reach_new ∅ (Stats 0 0 0) winning_rng) E)
      as (Heps & Hle & Hmin & _).
    split; [|done]. rewrite Heps. reflexivity.
  - vm_compute in E. discriminate.
  - vm_compute in E. discriminate.
Defined.

(** * Further properties of the source *)

(** ** Valid actions, states and keys *)

Lemma valid_from_sorted (i : nat) (b : list string) :
  StronglySorted lt (valid_from i b).
Proof.
  revert i. induction b as [|c b IH]; intros i; simpl; [constructor|].
  case_bool_decide; [|apply IH]. constructor; [apply IH|].
  apply Forall_forall. intros j (k & -> & _)%elem_of_valid_from. lia.
Qed.

Lemma valid_from_count (i : nat) (b : list string) :
  length (valid_from i b) = count_mark "_" b.
Proof.
  revert i. unfold count_mark. induction b as [|c b IH]; intros i; [done|].
  simpl. rewrite filter_cons. case_bool_decide.
  - rewrite decide_True by done. simpl. by rewrite IH.
  - rewrite decide_False by done. by rewrite IH.
Qed.

(** X1: [get_valid_actions] lists exactly the indices of the empty cells,
    in strictly ascending order, so there are as many as there are ["_"]
    on the board. *)
Theorem valid_actions_are_the_empty_cells (board : list string) :
  (∀ i, i ∈ get_valid_actions board ↔ board !! i = Some "_") ∧
  StronglySorted lt (get_valid_actions board) ∧
  length (get_valid_actions board) = count_mark "_" board.
Proof.
  split; [apply elem_of_valid_actions|].
  split; [apply valid_from_sorted | apply valid_from_count].
Qed.

Lemma append_empty_r (s : string) : s ++ "" = s.
Proof.
  induction s as [|ch s IH]; [done|].
  change (String ch (s ++ "") = String ch s). by rewrite IH.
Qed.

Lemma length_append (s t : string) :
  String.length (s ++ t) = String.length s + String.length t.
Proof.
  induction s as [|ch s IH]; [done|].
  change (S (String.length (s ++ t)) = S (String.length s) + String.length t).
  by rewrite IH.
Qed.

Lemma get_state_cons (c : string) (b : list string) :
  get_state (c :: b) = c ++ get_state b.
Proof.
  unfold get_state. destruct b as [|c' b]; simpl; [|done].
  by rewrite append_empty_r.
Qed.

Lemma get_state_length (b : list string) :
  single_chars b → String.length (get_state b) = length b.
Proof.
  induction 1 as [|c b Hc _ IH]; [done|].
  rewrite get_state_cons, length_append, Hc, IH. done.
Qed.

Lemma get_state_inj (b b' : list string) :
  single_chars b → single_chars b' → get_state b = get_state b' → b = b'.
Proof.
  intros Hb. revert b'. induction Hb as [|c b Hc _ IH]; intros b' Hb' Heq.
  - destruct Hb' as [|c' b' Hc' _]; [done|].
    rewrite get_state_cons in Heq.
    destruct c' as [|ch [|]]; simpl in *; done.
  - destruct Hb' as [|c' b' Hc' Hb']; rewrite !get_state_cons in Heq.
    + destruct c as [|ch [|]]; simpl in *; done.
    + destruct c as [|ch [|]]; try done. destruct c' as [|ch' [|]]; try done.
      simpl in Heq. injection Heq as -> Heq. f_equal. by apply IH.
Qed.

(** X2: on boards whose cells are single characters, the state string has
    one character per cell and two boards with the same state are the same
    board. *)
Theorem get_state_identifies_board (b b' : list string) :
  single_chars b → single_chars b' →
  String.length (get_state b) = length b ∧
  (get_state b = get_state b' → b = b').
Proof.
  intros Hb Hb'. split; [by apply get_state_length | by apply get_state_inj].
Qed.

Lemma get_state_identifies_board_witness :
  single_chars reset_board ∧ single_chars board_o_can_win ∧
  String.length (get_state reset_board) = length reset_board ∧
  (get_state reset_board = get_state board_o_can_win →
   reset_board = board_o_can_win).
Proof.
  assert (H1 : single_chars reset_board) by (repeat constructor).
  assert (H2 : single_chars board_o_can_win) by (repeat constructor).
  split; [done|]. split; [done|].
  apply (get_state_identifies_board reset_board board_o_can_win H1 H2).
Defined.

Lemma append_inj_length (s s' t t' : string) :
  String.length s = String.length s' → s ++ t = s' ++ t' → s = s' ∧ t = t'.
Proof.
  revert s'. induction s as [|ch s IH]; intros [|ch' s'] Hlen; simpl in *;
    try done.
  intros [= -> Heq]. destruct (IH s') as [-> ->]; [lia | done | done].
Qed.

Lemma key_inj (s s' : string) (a a' : nat) :
  String.length s = String.length s' → key s a = key s' a' → s = s' ∧ a = a'.
Proof.
  unfold key. intros Hlen [-> Heq]%append_inj_length; [|done].
  split; [done|]. simpl in Heq. injection Heq as Heq. by apply (inj pretty).
Qed.

(** X3: for states of the same length, distinct (state, action) pairs have
    distinct keys, so [update_q] on one pair leaves the estimate of every
    other pair as it was. *)
Theorem update_q_leaves_other_pairs (q : gmap string float)
    (state state' : string) (action action' : nat) (reward : float)
    (next_state : string) (next_actions : list nat) :
  String.length state = String.length state' →
  (state, action) ≠ (state', action') →
  key state action ≠ key state' action' ∧
  update_q q state action reward next_state next_actions !! key state' action'
  = q !! key state' action'.
Proof.
  intros Hlen Hne.
  assert (Hk : key state action ≠ key state' action').
  { intros [-> ->]%key_inj; done. }
  split; [done|]. apply update_q_lookup_ne. congruence.
Qed.

Lemma update_q_leaves_other_pairs_witness :
  key "X_O______" 0 ≠ key "_________" 0 ∧
  update_q table_prefers_1 "X_O______" 0 1 "XXO______" []
    !! key "_________" 0
  = table_prefers_1 !! key "_________" 0.
Proof.
  apply (update_q_leaves_other_pairs table_prefers_1 "X_O______" "_________"
           0 0 1 "XXO______" []); [reflexivity | discriminate].
Defined.

(** ** [check_win] on any list *)

Lemma all_cells_Ok (b : list string) (s : string) (line : list nat) (w : bool) :
  all_cells b s line = Ok w → w = line_is b s line.
Proof.
  revert w. induction line as [|i line IH]; intros w; simpl.
  - by intros [= <-].
  - intros (c & Hc & H)%bind_Ok_inv. unfold getitem in Hc.
    destruct (b !! i) as [c'|] eqn:Hi; [|done]. injection Hc as ->.
    case_bool_decide as Hcs.
    + subst c. rewrite bool_decide_true by done. by apply IH.
    + injection H as <-. rewrite bool_decide_false by congruence. done.
Qed.

Lemma any_line_Ok (b : list string) (s : string) (ls : list (list nat))
    (w : bool) :
  any_line b s ls = Ok w → w = existsb (line_is b s) ls.
Proof.
  revert w. induction ls as [|line ls IH]; intros w; simpl.
  - by intros [= <-].
  - intros (w1 & ->%all_cells_Ok & H)%bind_Ok_inv.
    destruct (line_is b s line); [by injection H as <- | by apply IH].
Qed.

Lemma has_line_true (b : list string) (s : string) :
  has_line b s = true ↔
  ∃ line, line ∈ lines ∧ ∀ i, i ∈ line → b !! i = Some s.
Proof.
  unfold has_line. rewrite existsb_exists. split.
  - intros (line & Hin & Hline). exists line.
    split; [by apply list_elem_of_In|]. intros i Hi.
    unfold line_is in Hline. rewrite forallb_forall in Hline.
    apply list_elem_of_In, Hline in Hi. by apply bool_decide_eq_true in Hi.
  - intros (line & Hin & Hline). exists line.
    split; [by apply list_elem_of_In|]. unfold line_is.
    apply forallb_forall. intros i Hi. apply bool_decide_eq_true.
    by apply Hline, list_elem_of_In.
Qed.

Lemma check_win_short (b : list string) (s : string) :
  length b < 3 → check_win b s = Raise BoardIndex.
Proof.
  destruct b as [|c0 [|c1 [|c2 b]]]; simpl; intros Hlen; try lia.
  - reflexivity.
  - unfold check_win. simpl. by case_bool_decide.
  - unfold check_win. simpl. by repeat case_bool_decide.
Qed.

(** X4: whenever [check_win] returns, it returns whether one of the eight
    lines holds the symbol in all three cells; it returns on every board of
    nine or more cells and raises [IndexError] on every board of fewer
    than three. *)
Theorem check_win_finds_a_line (board : list string) (symbol : string) :
  (∀ w, check_win board symbol = Ok w →
        (w = true ↔
         ∃ line, line ∈ lines ∧ ∀ i, i ∈ line → board !! i = Some symbol)) ∧
  ((9 ≤ length board)%nat → ∃ w, check_win board symbol = Ok w) ∧
  (length board < 3 → check_win board symbol = Raise BoardIndex).
Proof.
  split; [|split].
  - intros w ->%any_line_Ok. apply has_line_true.
  - intros Hlen. eexists. by apply check_win_has_line.
  - apply check_win_short.
Qed.

(** ** The opponent's first two rules *)

Lemma find_seq_first (P : nat → bool) (start n i : nat) :
  (start ≤ i < start + n)%nat → P i = true →
  ∃ c, find P (seq start n) = Some c ∧ P c = true ∧ (start ≤ c ≤ i)%nat.
Proof.
  revert start. induction n as [|n IH]; intros start Hi HP; [lia|].
  simpl. destruct (P start) eqn:Hstart.
  - exists start. split; [done|]. split; [done | lia].
  - destruct (decide (i = start)) as [->|Hne]; [congruence|].
    destruct (IH (S start)) as (c & -> & Hc & Hle); [lia | done |].
    exists c. split; [done|]. split; [done | lia].
Qed.

Lemma completes_check_win (b : list string) (mark : string) (i : nat) :
  length b = 9 →
  completes b mark i = true ↔
  b !! i = Some "_" ∧ check_win (<[i:=mark]> b) mark = Ok true.
Proof.
  intros Hb. unfold completes, empty_at.
  rewrite andb_true_iff, bool_decide_eq_true.
  rewrite check_win_has_line by (rewrite length_insert; lia).
  split; intros [? H]; (split; [done|]); congruence.
Qed.

(** X5: on a nine-cell board on which the opponent's own mark can complete
    a line at some empty cell, [computer_move] returns such a cell, the
    first one: the opponent never misses a win. *)
Theorem computer_move_takes_the_win (board : list string)
    (symbol player_symbol : string) (g : rng) (i : nat) :
  length board = 9 →
  board !! i = Some "_" →
  check_win (<[i:=symbol]> board) symbol = Ok true →
  ∃ c, computer_move board symbol player_symbol g = Ok (board, Some c, g) ∧
       (c ≤ i)%nat ∧ board !! c = Some "_" ∧
       check_win (<[c:=symbol]> board) symbol = Ok true.
Proof.
  intros Hb Hi Hwin.
  destruct (find_seq_first (completes board symbol) 0 9 i)
    as (c & Hfind & Hc & Hle).
  { apply lookup_lt_Some in Hi. lia. }
  { by apply completes_check_win. }
  apply completes_check_win in Hc as [Hc1 Hc2]; [|done].
  exists c. rewrite computer_move_rule by done. unfold opponent_rule.
  rewrite Hfind. repeat split; [lia | done | done].
Qed.

Lemma computer_move_takes_the_win_witness :
  ∃ c, computer_move board_o_can_win "O" "X" (fixed_rng 0.5 0)
       = Ok (board_o_can_win, Some c, fixed_rng 0.5 0) ∧
       (c ≤ 1)%nat ∧ board_o_can_win !! c = Some "_" ∧
       check_win (<[c:="O"]> board_o_can_win) "O" = Ok true.
Proof.
  apply (computer_move_takes_the_win board_o_can_win "O" "X"
           (fixed_rng 0.5 0) 1); reflexivity.
Defined.

(** X6: on a nine-cell board on which the opponent has no winning cell but
    the player's mark can complete a line at some empty cell,
    [computer_move] returns such a cell, the first one: it blocks. *)
Theorem computer_move_blocks (board : list string)
    (symbol player_symbol : string) (g : rng) (j : nat) :
  length board = 9 →
  (∀ i, board !! i = Some "_" →
        check_win (<[i:=symbol]> board) symbol = Ok false) →
  board !! j = Some "_" →
  check_win (<[j:=player_symbol]> board) player_symbol = Ok true →
  ∃ c, computer_move board symbol player_symbol g = Ok (board, Some c, g) ∧
       (c ≤ j)%nat ∧ board !! c = Some "_" ∧
       check_win (<[c:=player_symbol]> board) player_symbol = Ok true.
Proof.
  intros Hb Hnowin Hj Hthreat.
  assert (Hnone : find (completes board symbol) (seq 0 9) = None).
  { apply find_false. intros i.
    destruct (completes board symbol i) eqn:Hc; [|done].
    apply completes_check_win in Hc as [Hc1 Hc2]; [|done].
    rewrite (Hnowin i Hc1) in Hc2. discriminate. }
  destruct (find_seq_first (completes board player_symbol) 0 9 j)
    as (c & Hfind & Hc & Hle).
  { apply lookup_lt_Some in Hj. lia. }
  { by apply completes_check_win. }
  apply completes_check_win in Hc as [Hc1 Hc2]; [|done].
  exists c. rewrite computer_move_rule by done. unfold opponent_rule.
  rewrite Hnone, Hfind. repeat split; [lia | done | done].
Qed.

Lemma computer_move_blocks_witness :
  ∃ c, computer_move board_x_threatens "O" "X" (fixed_rng 0.5 0)
       = Ok (board_x_threatens, Some c, fixed_rng 0.5 0) ∧
       (c ≤ 2)%nat ∧ board_x_threatens !! c = Some "_" ∧
       check_win (<[c:="X"]> board_x_threatens) "X" = Ok true.
Proof.
  apply (computer_move_blocks board_x_threatens "O" "X" (fixed_rng 0.5 0) 2);
    [reflexivity | | reflexivity | reflexivity].
  intros [|[|[|[|[|[|[|[|[|i]]]]]]]]] Hi; try discriminate Hi; reflexivity.
Defined.

(** ** Greedy selection without a tie *)

Lemma ltb_eqb_false (x y : float) :
  (x <? y)%float = true → (x =? y)%float = false.
Proof.
  rewrite ltb_spec, FloatAxioms.eqb_spec. unfold SFltb, SFeqb.
  by destruct (SFcompare (Prim2SF x) (Prim2SF y)) as [[]|].
Qed.

(** X7: when one valid action has an estimate that is a number and that
    every other valid action's estimate is strictly below, the greedy
    branch returns that action whatever the generator draws. *)
Theorem choose_action_takes_the_best (q : gmap string float) (eps : float)
    (board : list string) (explore : bool) (g : rng) (a : nat) :
  let estimate := λ a, default 0%float (q !! key (get_state board) a) in
  explore = false ∨ (rng_floats g (rng_pos g) <? eps)%float = false →
  board !! a = Some "_" →
  is_nan (estimate a) = false →
  (∀ a', board !! a' = Some "_" → a' ≠ a →
         (estimate a' <? estimate a)%float = true) →
  choose_action q eps board explore g
  = Ok (Some a, rng_next (if explore then rng_next g else g)).
Proof.
  intros estimate Hu Ha Hnan Hbest.
  assert (Hne : get_valid_actions board ≠ []).
  { intros Hnil. apply elem_of_valid_actions in Ha. rewrite Hnil in Ha.
    by apply elem_of_nil in Ha. }
  destruct (choose_action_greedy q eps board explore g Hne Hu)
    as (max_q & Hmax & _ & Hrun).
  rewrite (Hrun g) by done.
  destruct (max_list_spec _ _ Hmax) as [Hmem Hub].
  assert (Hmaxa : max_q = estimate a).
  { apply list_elem_of_fmap in Hmem as (a0 & -> & Ha0).
    destruct (decide (a0 = a)) as [->|Hne0]; [done|].
    apply elem_of_valid_actions in Ha0.
    pose proof (Hbest a0 Ha0 Hne0) as Hlt.
    assert (Hge : (estimate a0 <? estimate a)%float = false); [|congruence].
    apply Hub, list_elem_of_fmap. exists a. split; [done|].
    by apply elem_of_valid_actions. }
  set (best := filter _ _).
  assert (Hin : a ∈ best).
  { apply list_elem_of_filter. split; [|by apply elem_of_valid_actions].
    rewrite Hmaxa. by apply eqb_refl_not_nan. }
  assert (Hall : ∀ x, x ∈ best → x = a).
  { intros x [Hx Hxv]%list_elem_of_filter.
    destruct (decide (x = a)) as [|Hxa]; [done|].
    apply elem_of_valid_actions in Hxv.
    pose proof (ltb_eqb_false _ _ (Hbest x Hxv Hxa)) as Hf.
    rewrite Hmaxa in Hx. change (q_get q (key (get_state board) x))
      with (estimate x) in Hx. congruence. }
  destruct (choice_nonempty best (if explore then rng_next g else g))
    as (x & Hx & ->).
  { intros Hnil. rewrite Hnil in Hin. by apply elem_of_nil in Hin. }
  apply list_elem_of_lookup_2 in Hx. by rewrite (Hall x Hx).
Qed.

Lemma choose_action_takes_the_best_witness :
  choose_action table_prefers_1 EPSILON reset_board false (fixed_rng 0.5 7)
  = Ok (Some 1, rng_next (fixed_rng 0.5 7)).
Proof.
  apply (choose_action_takes_the_best table_prefers_1 EPSILON reset_board
           false (fixed_rng 0.5 7) 1); [by left | reflexivity | reflexivity |].
  intros [|[|[|[|[|[|[|[|[|i]]]]]]]]] Hi Hne; try discriminate Hi;
    try done; reflexivity.
Defined.

(** ** The player's constructor *)

(** X8: for every symbol the constructor gives the player an opponent
    symbol that differs from its own, ["O"] exactly for the player ["X"]
    and ["X"] for every other one; a table that is handed over is the
    player's table, also when it is empty, and only a missing one is
    replaced by a new empty table. *)
Theorem player_opponent_symbol_differs (s : string)
    (t : option (gmap string float)) :
  symbol (QLearningPlayer s t) = s ∧
  opponent_symbol (QLearningPlayer s t) ≠ s ∧
  (opponent_symbol (QLearningPlayer s t) = "O" ↔ s = "X") ∧
  (s ≠ "X" → opponent_symbol (QLearningPlayer s t) = "X") ∧
  (∀ table, t = Some table → q (QLearningPlayer s t) = table) ∧
  (t = None → q (QLearningPlayer s t) = ∅).
Proof.
  split; [done|]. simpl. case_bool_decide as Hs.
  - subst s. repeat split; try done. by intros table ->. by intros ->.
  - repeat split; try done; try congruence. by intros table ->. by intros ->.
Qed.

(** ** One pass through the loop, in full *)

(** What a pass from a game that is on does to the whole state. *)
Lemma turn_outcome (eps : float) (s : game) :
  in_play (g_board s) →
  (∃ e, turn eps s = Raise e) ∨
  ∃ a g1,
    choose_action (g_q s) eps (g_board s) true (g_rng s) = Ok (Some a, g1) ∧
    g_board s !! a = Some "_" ∧
    let b1 := <[a:="X"]> (g_board s) in
    let h := (g_history s ++ [(get_state (g_board s), a)])%list in
    let st := g_stats s in
    (has_line b1 "X" = true ∧
     turn eps s
     = Ok (Break AgentWins
             (Game b1 (update_each (g_q s) (reverse h) 1 (get_state b1))
                   (Stats (games st + 1) (wins st + 1) (draws st)) h g1))) ∨
    (has_line b1 "X" = false ∧ ("_" ∉ b1) ∧
     turn eps s
     = Ok (Break DrawAfterAgent
             (Game b1 (update_each (g_q s) h 0.2 (get_state b1))
                   (Stats (games st + 1) (wins st) (draws st + 1)) h g1))) ∨
    (has_line b1 "X" = false ∧ ("_" ∈ b1) ∧
     ∃ c, opponent_rule b1 "O" "X" = Some c ∧ b1 !! c = Some "_" ∧
       let b3 := <[c:="O"]> b1 in
       (has_line b3 "O" = true ∧
        turn eps s
        = Ok (Break ComputerWins
                (Game b3 (update_q (g_q s) (get_state (g_board s)) a (-1)
                                   (get_state b3) [])
                      (Stats (games st + 1) (wins st) (draws st)) h g1))) ∨
       (has_line b3 "O" = false ∧ ("_" ∉ b3) ∧
        turn eps s
        = Ok (Break DrawAfterComputer
                (Game b3 (update_each (g_q s) h 0.2 (get_state b3))
                      (Stats (games st + 1) (wins st) (draws st + 1)) h g1))) ∨
       (has_line b3 "O" = false ∧ ("_" ∈ b3) ∧
        turn eps s = Ok (Continue (Game b3 (g_q s) st h g1)))).
Proof.
  intros (Hlen & HX & HO & Hin). unfold turn.
  destruct (choose_action (g_q s) eps (g_board s) true (g_rng s))
    as [[chosen g1]|e] eqn:Hchoose; [|left; by exists e].
  right. rewrite bind_Ok. cbn beta iota.
  destruct chosen as [a|].
  2:{ by apply choose_action_None in Hchoose as [? _]. }
  pose proof (choose_action_valid _ _ _ _ _ _ _ Hchoose) as Ha.
  pose proof (lookup_lt_Some _ _ _ Ha) as Hlt.
  exists a, g1. split; [done|]. split; [done|]. cbv zeta.
  rewrite setitem_lt, bind_Ok by done.
  set (b1 := <[a:="X"]> (g_board s)).
  assert (Hlen1 : length b1 = 9) by by (unfold b1; rewrite length_insert).
  rewrite check_win_has_line, bind_Ok by lia.
  destruct (has_line b1 "X") eqn:HX1; [by left|]. right.
  destruct (is_draw b1) eqn:Hd1.
  { left. by apply is_draw_true in Hd1. }
  right. apply is_draw_false in Hd1. split; [done|]. split; [done|].
  rewrite computer_move_rule, bind_Ok by done. cbn beta iota.
  destruct (opponent_rule b1 "O" "X") as [c|] eqn:Hrule.
  2:{ by apply opponent_rule_None in Hrule. }
  assert (Hc : b1 !! c = Some "_").
  { eapply (computer_move_valid b1 b1 "O" "X" g1 g1).
    by rewrite computer_move_rule, Hrule. }
  pose proof (lookup_lt_Some _ _ _ Hc) as Hltc.
  exists c. split; [done|]. split; [done|].
  rewrite setitem_lt, bind_Ok by done.
  set (b3 := <[c:="O"]> b1).
  assert (Hlen3 : length b3 = 9) by by (unfold b3; rewrite length_insert).
  rewrite check_win_has_line, bind_Ok by lia. rewrite last_snoc.
  destruct (has_line b3 "O") eqn:HO3; [by left|]. right.
  destruct (is_draw b3) eqn:Hd3.
  { left. by apply is_draw_true in Hd3. }
  right. by apply is_draw_false in Hd3.
Qed.

(** The loop carries an invariant of its passes to the state it leaves. *)
Lemma game_loop_invariant (P : game → Prop) (Q : ending → game → Prop)
    (eps : float) :
  (∀ s s', P s → turn eps s = Ok (Continue s') → P s') →
  (∀ s why s', P s → turn eps s = Ok (Break why s') → Q why s') →
  ∀ fuel s why s',
    P s → game_loop fuel eps s = Some (Ok (why, s')) → Q why s'.
Proof.
  intros Hstep Hbreak fuel.
  induction fuel as [|fuel IH]; intros s why s' HP; simpl; [done|].
  destruct (turn eps s) as [[s1|w s1]|e] eqn:Ht; [| |done].
  - apply IH. by eapply Hstep.
  - intros [= <- <-]. by eapply Hbreak.
Qed.

(** ** Marks, counted *)

Lemma count_mark_insert_eq (b : list string) (i : nat) (c m : string) :
  b !! i = Some c → c ≠ m →
  count_mark m (<[i:=m]> b) = S (count_mark m b).
Proof.
  unfold count_mark. revert i. induction b as [|c0 b IH]; intros i Hi Hc;
    [done|].
  destruct i as [|i]; simpl in *.
  - injection Hi as ->. rewrite !filter_cons.
    rewrite decide_True by done. by rewrite decide_False by done.
  - rewrite !filter_cons. specialize (IH i Hi Hc).
    case_decide; simpl; by rewrite IH.
Qed.

Lemma count_mark_insert_ne (b : list string) (i : nat) (c v m : string) :
  b !! i = Some c → c ≠ m → v ≠ m →
  count_mark m (<[i:=v]> b) = count_mark m b.
Proof.
  unfold count_mark. revert i. induction b as [|c0 b IH]; intros i Hi Hc Hv;
    [done|].
  destruct i as [|i]; simpl in *.
  - injection Hi as ->. rewrite !filter_cons.
    by rewrite !decide_False by done.
  - rewrite !filter_cons. specialize (IH i Hi Hc Hv).
    case_decide; simpl; by rewrite IH.
Qed.

Lemma count_mark_total (b : list string) :
  marks_only b →
  count_mark "_" b + count_mark "X" b + count_mark "O" b = length b.
Proof.
  unfold count_mark. induction 1 as [|c b Hc _ IH]; [done|].
  rewrite !filter_cons.
  destruct Hc as [-> | [-> | ->]]; repeat case_decide; try done; simpl; lia.
Qed.

Lemma marks_only_single_chars (b : list string) :
  marks_only b → single_chars b.
Proof.
  intros Hb. eapply Forall_impl; [exact Hb|]. by intros c [-> | [-> | ->]].
Qed.

Lemma marks_only_insert (b : list string) (i : nat) (m : string) :
  marks_only b → m = "_" ∨ m = "X" ∨ m = "O" → marks_only (<[i:=m]> b).
Proof.
  intros Hb Hm. destruct (decide (i < length b)) as [Hi|Hi].
  - by apply Forall_insert.
  - rewrite list_insert_ge by lia. done.
Qed.

(** ** The history and the board *)

Lemma recorded_reset : recorded reset_board [].
Proof.
  split; [reflexivity|]. split; [repeat constructor; by left|].
  split; [reflexivity|]. split; [constructor|].
  intros st a Hin. by apply elem_of_nil in Hin.
Qed.

(** The agent's move is recorded. *)
Lemma recorded_agent (b : list string) (h : list (string * nat)) (a : nat) :
  recorded b h → b !! a = Some "_" →
  recorded (<[a:="X"]> b) (h ++ [(get_state b, a)]).
Proof.
  intros (Hlen & Hmarks & Hcount & Hkeys & Hpairs) Ha.
  pose proof (valid_actions_insert b a "X" Ha ltac:(done)) as Hless.
  split; [by rewrite length_insert|].
  split; [apply marks_only_insert; auto|].
  split.
  { rewrite (count_mark_insert_eq b a "_") by done.
    rewrite length_app. simpl. lia. }
  split.
  { unfold keys_of. rewrite fmap_app. apply NoDup_app.
    split; [done|]. split; [|apply NoDup_singleton].
    intros k Hk ->%list_elem_of_singleton.
    apply list_elem_of_fmap in Hk as ([st a'] & Hk & Hin). simpl in Hk.
    destruct (Hpairs st a' Hin) as (_ & b' & -> & Hlen' & Hmarks' & _ & Hlt).
    apply key_inj in Hk as [Hst _].
    2:{ rewrite !get_state_length by by apply marks_only_single_chars.
        lia. }
    apply get_state_inj in Hst; try by apply marks_only_single_chars.
    subst b'. lia. }
  intros st a' [Hin|Hin]%elem_of_app.
  - destruct (Hpairs st a' Hin) as (Ha' & b' & -> & Hlen' & Hmarks' & He & Hlt).
    split.
    { rewrite list_lookup_insert_ne; [done|]. congruence. }
    exists b'. repeat split; try done. lia.
  - apply list_elem_of_singleton in Hin. injection Hin as -> ->. split.
    { apply list_lookup_insert_eq. by eapply lookup_lt_Some. }
    exists b. repeat split; try done. lia.
Qed.

(** The opponent's move leaves the record as it is. *)
Lemma recorded_computer (b : list string) (h : list (string * nat)) (c : nat) :
  recorded b h → b !! c = Some "_" → recorded (<[c:="O"]> b) h.
Proof.
  intros (Hlen & Hmarks & Hcount & Hkeys & Hpairs) Hc.
  pose proof (valid_actions_insert b c "O" Hc ltac:(done)) as Hless.
  split; [by rewrite length_insert|].
  split; [apply marks_only_insert; auto|].
  split; [by rewrite (count_mark_insert_ne b c "_")|].
  split; [done|].
  intros st a Hin.
  destruct (Hpairs st a Hin) as (Ha & b' & -> & Hlen' & Hmarks' & He & Hlt).
  split.
  { rewrite list_lookup_insert_ne; [done|]. congruence. }
  exists b'. repeat split; try done. lia.
Qed.

Lemma count_empty_full (b : list string) : "_" ∉ b → count_mark "_" b = 0.
Proof.
  intros Hb. rewrite <- (valid_from_count 0).
  by rewrite (proj2 (valid_from_nil b 0) Hb).
Qed.

Lemma at_loop_head_reset (q0 : gmap string float) (st0 : stats) (g : rng) :
  at_loop_head q0 st0 (Game reset_board q0 st0 [] g).
Proof.
  split; [apply in_play_reset|]. split; [apply recorded_reset|]. done.
Qed.

(** A pass that goes on leads from one loop head to the next. *)
Lemma at_loop_head_step (eps : float) (q0 : gmap string float) (st0 : stats)
    (s s' : game) :
  at_loop_head q0 st0 s → turn eps s = Ok (Continue s') →
  at_loop_head q0 st0 s'.
Proof.
  intros (Hplay & Hrec & HcO & Hq & Hst) Ht.
  destruct (turn_in_play eps s Hplay)
    as [(e & _ & He)|[(w & s1 & He & _)|(s1 & He & Hplay1 & _)]];
    try congruence.
  destruct (turn_outcome eps s Hplay) as [[e He']|(a & g1 & _ & Ha & Hcases)];
    [congruence|].
  cbv zeta in Hcases.
  pose proof (recorded_agent _ _ a Hrec Ha) as Hrec1.
  destruct Hcases as [[_ Heq]|[(_ & _ & Heq)|(_ & _ & c & _ & Hc & Hcases)]];
    try congruence.
  pose proof (recorded_computer _ _ c Hrec1 Hc) as Hrec3.
  destruct Hcases as [[_ Heq]|[(_ & _ & Heq)|(_ & Hin3 & Heq)]];
    try congruence.
  rewrite Heq in Ht, He. injection Ht as <-. injection He as <-.
  split; [done|]. split; [done|]. simpl. split; [|done].
  rewrite (count_mark_insert_eq _ c "_") by done.
  rewrite (count_mark_insert_ne _ a "_") by done.
  rewrite length_app. simpl. lia.
Qed.

(** A pass that breaks leaves the loop in a finished state. *)
Lemma at_loop_head_break (eps : float) (q0 : gmap string float) (st0 : stats)
    (s s' : game) (why : ending) :
  at_loop_head q0 st0 s → turn eps s = Ok (Break why s') →
  finished st0 why s'.
Proof.
  intros (Hplay & Hrec & HcO & Hq & Hst) Ht.
  destruct (turn_outcome eps s Hplay) as [[e He']|(a & g1 & _ & Ha & Hcases)];
    [congruence|].
  cbv zeta in Hcases.
  pose proof (recorded_agent _ _ a Hrec Ha) as Hrec1.
  assert (HO1 : count_mark "O" (<[a:="X"]> (g_board s))
                = length (g_history s)).
  { by rewrite (count_mark_insert_ne _ a "_"). }
  assert (Hlen : length (g_history s ++ [(get_state (g_board s), a)])
                 = S (length (g_history s))).
  { rewrite length_app. simpl. lia. }
  assert (Hne : (g_history s ++ [(get_state (g_board s), a)])%list ≠ []).
  { by destruct (g_history s). }
  destruct Hcases as [[_ Heq]|[(_ & Hfull & Heq)|(_ & _ & c & _ & Hc & Hcases)]].
  - rewrite Heq in Ht. injection Ht as <- <-.
    split; [done|]. split; [done|]. simpl. rewrite HO1, Hlen, Hst. done.
  - rewrite Heq in Ht. injection Ht as <- <-.
    split; [done|]. split; [done|]. simpl. rewrite HO1, Hlen, Hst.
    split; [done|]. split; [|done].
    destruct Hrec1 as (Hlen1 & Hmarks1 & HX1 & _).
    pose proof (count_mark_total _ Hmarks1) as Htot.
    rewrite (count_empty_full _ Hfull), HX1, HO1, Hlen, Hlen1 in Htot. lia.
  - pose proof (recorded_computer _ _ c Hrec1 Hc) as Hrec3.
    assert (HO3 : count_mark "O" (<[c:="O"]> (<[a:="X"]> (g_board s)))
                  = S (length (g_history s))).
    { by rewrite (count_mark_insert_eq _ c "_"), HO1. }
    destruct Hcases as [[_ Heq]|[(_ & Hfull & Heq)|(_ & _ & Heq)]];
      [| |congruence].
    + rewrite Heq in Ht. injection Ht as <- <-.
      split; [done|]. split; [done|]. simpl. rewrite HO3, Hlen, Hst. done.
    + exfalso.
      destruct Hrec3 as (Hlen3 & Hmarks3 & HX3 & _).
      pose proof (count_mark_total _ Hmarks3) as Htot.
      rewrite (count_empty_full _ Hfull), HX3, HO3, Hlen, Hlen3 in Htot. lia.
Qed.

Lemma episode_finished (fuel : nat) (t : trainer) (why : ending) (s : game) :
  episode fuel t = Some (Ok (why, s)) → finished (stats_of t) why s.
Proof.
  apply (game_loop_invariant (at_loop_head (q_table t) (stats_of t))
           (finished (stats_of t)) (epsilon t)).
  - intros s0 s1. apply at_loop_head_step.
  - intros s0 w s1. apply at_loop_head_break.
  - apply at_loop_head_reset.
Qed.

(** ** The update loops *)

Lemma update_each_cons (q0 : gmap string float) (st : string) (a : nat)
    (pairs : list (string * nat)) (r : float) (ns : string) :
  update_each q0 ((st, a) :: pairs) r ns
  = update_each (update_q q0 st a r ns []) pairs r ns.
Proof. reflexivity. Qed.

Lemma update_each_lookup_ne (q0 : gmap string float)
    (pairs : list (string * nat)) (r : float) (ns : string) (k : string) :
  k ∉ keys_of pairs → update_each q0 pairs r ns !! k = q0 !! k.
Proof.
  revert q0. induction pairs as [|[st a] pairs IH]; intros q0 Hk; [done|].
  rewrite update_each_cons. apply not_elem_of_cons in Hk as [Hne Hk].
  rewrite IH by done. by apply update_q_lookup_ne.
Qed.

Lemma update_each_lookup (q0 : gmap string float)
    (pairs : list (string * nat)) (r : float) (ns : string)
    (st : string) (a : nat) :
  NoDup (keys_of pairs) → (st, a) ∈ pairs →
  update_each q0 pairs r ns !! key st a
  = Some (terminal (q_get q0 (key st a)) r).
Proof.
  revert q0. induction pairs as [|[st' a'] pairs IH]; intros q0 Hnd Hin.
  { by apply elem_of_nil in Hin. }
  rewrite update_each_cons. apply NoDup_cons in Hnd as [Hhead Hnd].
  simpl in Hhead. apply elem_of_cons in Hin as [[= -> ->]|Hin].
  - rewrite update_each_lookup_ne by done. apply update_q_lookup.
  - rewrite IH by done. unfold q_get at 1.
    rewrite update_q_lookup_ne; [done|].
    intros Heq. apply Hhead. rewrite <- Heq.
    apply list_elem_of_fmap. by exists (st, a).
Qed.

Lemma update_each_reverse (q0 : gmap string float)
    (pairs : list (string * nat)) (r : float) (ns : string) :
  NoDup (keys_of pairs) →
  update_each q0 (reverse pairs) r ns = update_each q0 pairs r ns.
Proof.
  intros Hnd.
  assert (Hnd' : NoDup (keys_of (reverse pairs))).
  { unfold keys_of. rewrite fmap_reverse. by rewrite reverse_Permutation. }
  apply map_eq. intros k.
  destruct (decide (k ∈ keys_of pairs)) as [Hk|Hk].
  - apply list_elem_of_fmap in Hk as ([st a] & -> & Hin). simpl.
    rewrite !update_each_lookup; try done. by apply elem_of_reverse.
  - rewrite !update_each_lookup_ne; try done.
    unfold keys_of. rewrite fmap_reverse. by rewrite elem_of_reverse.
Qed.

Lemma update_each_dom (q0 : gmap string float)
    (pairs : list (string * nat)) (r : float) (ns : string) :
  dom (update_each q0 pairs r ns) = dom q0 ∪ list_to_set (keys_of pairs).
Proof.
  revert q0. induction pairs as [|[st a] pairs IH]; intros q0.
  - simpl. by rewrite (right_id_L ∅ (∪)).
  - rewrite update_each_cons, IH. unfold update_q. rewrite dom_insert_L.
    simpl. apply set_eq. intros k.
    rewrite !elem_of_union, elem_of_singleton. tauto.
Qed.

(** X9: when the keys of the pairs are pairwise distinct, the update loop
    replaces the entry of every pair by one terminal update of the value it
    had before the loop, touches no other entry, and gives the same table
    for the reversed list: the order of the win path and of the draw path
    makes no difference. *)
Theorem update_each_updates_every_pair_once (q0 : gmap string float)
    (pairs : list (string * nat)) (reward : float) (next_state : string) :
  NoDup (keys_of pairs) →
  (∀ st a, (st, a) ∈ pairs →
     update_each q0 pairs reward next_state !! key st a
     = Some (default 0 (q0 !! key st a)
             + ALPHA * (reward + GAMMA * 0 - default 0 (q0 !! key st a)))%float) ∧
  (∀ k, k ∉ keys_of pairs →
     update_each q0 pairs reward next_state !! k = q0 !! k) ∧
  update_each q0 (reverse pairs) reward next_state
  = update_each q0 pairs reward next_state.
Proof.
  intros Hnd. split; [|split].
  - intros st a Hin. by apply update_each_lookup.
  - intros k Hk. by apply update_each_lookup_ne.
  - by apply update_each_reverse.
Qed.

Lemma update_each_updates_every_pair_once_witness :
  update_each table_prefers_1 (reverse three_pairs) 1 "X_OOO_XXX"
  = update_each table_prefers_1 three_pairs 1 "X_OOO_XXX".
Proof.
  apply (update_each_updates_every_pair_once table_prefers_1 three_pairs 1
           "X_OOO_XXX").
  apply (bool_decide_unpack _). vm_compute. exact I.
Defined.

(** ** Whole episodes *)





Lemma episode_table (fuel : nat) (t : trainer) (why : ending) (s : game) :
  episode fuel t = Some (Ok (why, s)) →
  NoDup (keys_of (g_history s)) ∧
  NoDup (keys_of (credited_pairs why (g_history s))) ∧
  g_q s = update_each (q_table t) (credited_pairs why (g_history s))
                      (reward_of why) (get_state (g_board s)).
Proof.
  intros E. pose proof (episode_finished _ _ _ _ E) as ((_ & _ & _ & Hnd & _) & _).
  apply (game_loop_credit fuel (epsilon t)
           (Game reset_board (q_table t) (stats_of t) [] (gen t)))
    in E; [|apply in_play_reset].
  split; [done|]. simpl in E. destruct why; simpl in *; try done.
  - destruct E as [_ ->]. split; [done|]. by apply update_each_reverse.
  - by destruct E as (_ & _ & _ & ->).
  - destruct E as (_ & _ & earlier & st & a & Hh & ->).
    rewrite Hh, last_snoc. split; [|done]. apply NoDup_singleton.
  - by destruct E as (_ & _ & _ & ->).
Qed.



(** ** The only exception of an episode *)





(** ** The decay, for every rate *)

Lemma ltb_leb (x y : float) :
  (x <? y)%float = true → (x <=? y)%float = true.
Proof.
  rewrite ltb_spec, leb_spec. unfold SFltb, SFleb.
  by destruct (SFcompare (Prim2SF x) (Prim2SF y)) as [[]|].
Qed.

Lemma SFcompare_refl (f : spec_float) :
  f ≠ S754_nan → SFcompare f f = Some Eq.
Proof.
  destruct f as [[]|[]| |[] m e]; simpl; try done.
  all: change (Pos.compare_cont Eq ?x ?y) with (Pos.compare x y).
  all: by rewrite Z.compare_refl, Pos.compare_refl.
Qed.

Lemma ltb_not_nan (x y : float) :
  (x <? y)%float = true → is_nan y = false.
Proof.
  unfold is_nan. rewrite ltb_spec, FloatAxioms.eqb_spec.
  unfold SFltb, SFeqb. intros Hlt.
  rewrite SFcompare_refl; [done|]. intros Hy. rewrite Hy in Hlt.
  by destruct (Prim2SF x).
Qed.

(** X14: whatever the rate is - also an infinity or NaN - the decayed rate
    is a number, not below MIN_EPSILON, and is either the product with
    EPSILON_DECAY or MIN_EPSILON itself. *)
Theorem decay_stays_above_floor (e : float) :
  (MIN_EPSILON <=? decay e)%float = true ∧
  is_nan (decay e) = false ∧
  (decay e = (e * EPSILON_DECAY)%float ∨ decay e = MIN_EPSILON).
Proof.
  unfold decay, max2.
  destruct (MIN_EPSILON <? e * EPSILON_DECAY)%float eqn:Hlt.
  - split; [by apply ltb_leb|]. split; [by eapply ltb_not_nan | by left].
  - split; [reflexivity|]. split; [reflexivity | by right].
Qed.

(** ** Sessions of several games *)

Lemma play_one_game_counters (fuel : nat) (t t' : trainer) :
  play_one_game fuel t = Some (Ok t') →
  games (stats_of t') = (games (stats_of t) + 1)%Z ∧
  (wins (stats_of t) ≤ wins (stats_of t'))%Z ∧
  (draws (stats_of t) ≤ draws (stats_of t'))%Z ∧
  (wins (stats_of t') + draws (stats_of t')
   ≤ wins (stats_of t) + draws (stats_of t) + 1)%Z ∧
  dom (q_table t) ⊆ dom (q_table t') ∧
  length (board t') = 9.
Proof.
  unfold play_one_game.
  destruct (episode fuel t) as [[[why s]|e]|] eqn:E; try done.
  intros [= <-]. simpl.
  pose proof (episode_finished _ _ _ _ E) as ((Hlen & _) & _ & Hwhy).
  pose proof (episode_table _ _ _ _ E) as (_ & _ & Hq).
  assert (Hdom : dom (q_table t) ⊆ dom (g_q s)).
  { rewrite Hq, update_each_dom. apply union_subseteq_l. }
  destruct why; try done.
  - destruct Hwhy as (_ & ->). simpl. repeat split; try done; lia.
  - destruct Hwhy as (_ & _ & ->). simpl. repeat split; try done; lia.
  - destruct Hwhy as (_ & ->). simpl. repeat split; try done; lia.
Qed.

(** X15: after [n] games of a session the games counter has grown by
    exactly [n], the wins and draws counters have not decreased and have
    grown by at most [n] together, every key the session started with is
    still in the table, and the game just played is followed by a flush to
    the files exactly when the starting count plus [n] is a multiple of
    500. *)
Theorem session_counts_games (q0 : gmap string float) (st0 : stats)
    (n : nat) (t : trainer) :
  session q0 st0 n t →
  games (stats_of t) = (games st0 + Z.of_nat n)%Z ∧
  (wins st0 ≤ wins (stats_of t))%Z ∧
  (draws st0 ≤ draws (stats_of t))%Z ∧
  (wins (stats_of t) + draws (stats_of t) ≤ wins st0 + draws st0 + Z.of_nat n)%Z ∧
  dom q0 ⊆ dom (q_table t) ∧
  saves_after t = bool_decide (((games st0 + Z.of_nat n) `mod` 500)%Z = 0%Z).
Proof.
  intros Hs.
  assert (H : games (stats_of t) = (games st0 + Z.of_nat n)%Z ∧
              (wins st0 ≤ wins (stats_of t))%Z ∧
              (draws st0 ≤ draws (stats_of t))%Z ∧
              (wins (stats_of t) + draws (stats_of t)
               ≤ wins st0 + draws st0 + Z.of_nat n)%Z ∧
              dom q0 ⊆ dom (q_table t)).
  { induction Hs as [g|n fuel t t' _ (Hg & Hw & Hd & Hwd & Hdom) Hgame].
    - simpl. repeat split; try done; lia.
    - apply play_one_game_counters in Hgame
        as (Hg' & Hw' & Hd' & Hwd' & Hdom' & _).
      repeat split; try lia. by etrans. }
  destruct H as (Hg & Hw & Hd & Hwd & Hdom).
  repeat split; try done. unfold saves_after. by rewrite Hg.
Qed.

Lemma session_counts_games_witness :
  match play_one_game 5 (fresh_trainer winning_rng) with
  | Some (Ok t') =>
      games (stats_of t') = (0 + Z.of_nat 1)%Z ∧ saves_after t' = false
  | _ => False
  end.
Proof.
  destruct (play_one_game 5 (fresh_trainer winning_rng)) as [[t'|e]|] eqn:E.
  - destruct (session_counts_games ∅ (Stats 0 0 0) 1 t'
                (session_game ∅ (Stats 0 0 0) 0 5 _ t'
                   (session_new ∅ (Stats 0 0 0) winning_rng) E))
      as (Hg & _ & _ & _ & _ & Hsave).
    split; [done|]. rewrite Hsave. reflexivity.
  - vm_compute in E. discriminate.
  - vm_compute in E. discriminate.
Defined.

Lemma above_floor_for_sound (n : nat) (e : float) :
  above_floor_for n e = true →
  ∀ k, k < n → (MIN_EPSILON <? Nat.iter k decay e)%float = true.
Proof.
  revert e. induction n as [|n IH]; intros e; simpl; [lia|].
  intros [Hhead Hrest]%andb_true_iff [|k] Hk; [done|].
  rewrite Nat.iter_succ_r. apply IH; [done | lia].
Qed.

Lemma schedule_above_floor :
  above_floor_for (N.to_nat 27726) EPSILON = true.
Proof. vm_compute. reflexivity. Qed.

Lemma schedule_reaches_floor :
  Nat.iter (N.to_nat 27726) decay EPSILON = MIN_EPSILON.
Proof. vm_compute. reflexivity. Qed.

Lemma session_epsilon (q0 : gmap string float) (st0 : stats) (n : nat)
    (t : trainer) :
  session q0 st0 n t → epsilon t = Nat.iter n decay EPSILON.
Proof.
  induction 1 as [g|n fuel t t' _ IH Hgame]; [done|].
  apply play_one_game_epsilon in Hgame. simpl. by rewrite <- IH.
Qed.

(** X16: in a session the exploration rate after [n] games is the [n]-fold
    decay of 0.2; it is strictly above MIN_EPSILON during the first 27726
    games and exactly MIN_EPSILON from then on. *)
Theorem session_exploration_schedule (q0 : gmap string float) (st0 : stats)
    (n : nat) (t : trainer) :
  session q0 st0 n t →
  epsilon t = Nat.iter n decay EPSILON ∧
  ((N.of_nat n < 27726)%N → (MIN_EPSILON <? epsilon t)%float = true) ∧
  ((27726 ≤ N.of_nat n)%N → epsilon t = MIN_EPSILON).
Proof.
  intros ->%session_epsilon. split; [done|]. split.
  - intros Hn. apply (above_floor_for_sound _ _ schedule_above_floor). lia.
  - intros Hn.
    replace n with ((n - N.to_nat 27726) + N.to_nat 27726) by lia.
    rewrite Nat.iter_add, schedule_reaches_floor. apply iter_decay_floor.
Qed.

Lemma session_exploration_schedule_witness :
  match play_one_game 5 (fresh_trainer winning_rng) with
  | Some (Ok t') =>
      epsilon t' = decay EPSILON ∧ (MIN_EPSILON <? epsilon t')%float = true
  | _ => False
  end.
Proof.
  destruct (play_one_game 5 (fresh_trainer winning_rng)) as [[t'|e]|] eqn:E.
  - destruct (session_exploration_schedule ∅ (Stats 0 0 0) 1 t'
                (session_game ∅ (Stats 0 0 0) 0 5 _ t'
                   (session_new ∅ (Stats 0 0 0) winning_rng) E))
      as (Heps & Habove & _).
    split; [done|]. apply Habove. reflexivity.
  - vm_compute in E. discriminate.
  - vm_compute in E. discriminate.
Defined.

(** ** The terminal credit, entry by entry *)


